(** * Treap-backed set and map (Treap-topic/Treapmap.cpp)

    A shallow embedding of the two classes of the source file, [TreapMap]
    (keys bound to strings) and [TreapSet] (keys only, with a cardinality
    counter), followed by the properties of their public operations.

    Conventions of the embedding.
    - A [Node*] is an owned tree: [nullptr] or a node with its fields.  The
      structure is a pure tree (no sharing), so reassigning a child slot is
      rebuilding the node.
    - [int] keys and priorities are integers of [Z]; the code only compares
      them.  The counter [nodeCount] is an [int] that the code increments and
      decrements: leaving the range of [int] is undefined behaviour.
    - [rand()] reads a global generator; the generator is the sequence of the
      values it is still going to return.
    - A call has an [outcome]: it returns, it has undefined behaviour (a null
      pointer is dereferenced, a signed counter overflows), or, for the one
      recursion that is not structural, the model ran out of fuel. *)

From stdpp Require Import base option list gmap sets strings sorting.
From Stdlib Require Import ZArith Lia.

Local Open Scope Z_scope.

(** ** The C++ run time the classes rely on *)

Module Cpp.

Definition INT_MAX : Z := 2147483647.
Definition INT_MIN : Z := -2147483648.

Inductive outcome (A : Type) : Type :=
| Done (a : A)
| Undefined
| Timeout.
Arguments Done {A} a.
Arguments Undefined {A}.
Arguments Timeout {A}.

Definition obind {A B : Type} (m : outcome A) (k : A -> outcome B) : outcome B :=
  match m with
  | Done a => k a
  | Undefined => Undefined
  | Timeout => Timeout
  end.

(** A computation over a mutable state [S]. *)
Definition M (S A : Type) : Type := S -> outcome (A * S).

Definition ret {S A : Type} (a : A) : M S A := fun s => Done (a, s).

Definition bind {S A B : Type} (m : M S A) (k : A -> M S B) : M S B :=
  fun s => match m s with
           | Done (a, s') => k a s'
           | Undefined => Undefined
           | Timeout => Timeout
           end.

Definition lift {S A : Type} (m : outcome A) : M S A :=
  fun s => obind m (fun a => Done (a, s)).

(** The generator behind [rand()]: the values of the calls to come. *)
Definition RandState : Type := nat -> Z.

(** The generator after one call of [rand()]. *)
Definition next (g : RandState) : RandState := fun n => g (S n).

Definition rand : M RandState Z :=
  fun g => Done (g O, next g).

(** [n++] and [n--] on an [int]. *)
Definition incr (n : Z) : outcome Z :=
  if n <? INT_MAX then Done (n + 1) else Undefined.

Definition decr (n : Z) : outcome Z :=
  if INT_MIN <? n then Done (n - 1) else Undefined.

End Cpp.

Import Cpp.

Notation "'let!' x ':=' m 'in' k" := (bind m (fun x => k))
  (at level 10, x name, m at level 100, k at level 200, only parsing).
Notation "'let?' x ':=' m 'in' k" := (obind m (fun x => k))
  (at level 10, x name, m at level 100, k at level 200, only parsing).

(** ** TreapMap *)

Module TreapMap.

Definition Key : Type := Z.
Definition Value : Type := string.

Inductive Node : Type :=
| nullptr
| mkNode (key : Key) (value : Value) (priority : Z) (left right : Node).

Definition rotateRight (y : Node) : outcome Node :=
  match y with
  | mkNode ky vy py (mkNode kx vx px T1 T2) T3 =>
      Done (mkNode kx vx px T1 (mkNode ky vy py T2 T3))
  | _ => Undefined
  end.

Definition rotateLeft (x : Node) : outcome Node :=
  match x with
  | mkNode kx vx px T1 (mkNode ky vy py T2 T3) =>
      Done (mkNode ky vy py (mkNode kx vx px T1 T2) T3)
  | _ => Undefined
  end.

(** [child != nullptr && child->priority > p] *)
Definition outranks (child : Node) (p : Z) : bool :=
  match child with
  | nullptr => false
  | mkNode _ _ pc _ _ => pc >? p
  end.

Fixpoint insertRecursive (node : Node) (key : Key) (value : Value)
  : M RandState Node :=
  match node with
  | nullptr =>
      let! p := rand in ret (mkNode key value p nullptr nullptr)
  | mkNode k v p l r =>
      if key <? k then
        let! l' := insertRecursive l key value in
        if outranks l' p then lift (rotateRight (mkNode k v p l' r))
        else ret (mkNode k v p l' r)
      else if key >? k then
        let! r' := insertRecursive r key value in
        if outranks r' p then lift (rotateLeft (mkNode k v p l r'))
        else ret (mkNode k v p l r')
      else ret (mkNode k value p l r)
  end.

Fixpoint removeRecursive (fuel : nat) (node : Node) (key : Key)
  : outcome Node :=
  match fuel with
  | O => Timeout
  | S fuel =>
      match node with
      | nullptr => Done nullptr
      | mkNode k v p l r =>
          if key <? k then
            let? l' := removeRecursive fuel l key in Done (mkNode k v p l' r)
          else if key >? k then
            let? r' := removeRecursive fuel r key in Done (mkNode k v p l r')
          else
            match l, r with
            | nullptr, _ => Done r
            | _, nullptr => Done l
            | mkNode _ _ pl _ _, mkNode _ _ pr _ _ =>
                if pl >? pr then
                  let? x := rotateRight node in
                  match x with
                  | nullptr => Undefined
                  | mkNode kx vx px xl xr =>
                      let? xr' := removeRecursive fuel xr key in
                      Done (mkNode kx vx px xl xr')
                  end
                else
                  let? y := rotateLeft node in
                  match y with
                  | nullptr => Undefined
                  | mkNode ky vy py yl yr =>
                      let? yl' := removeRecursive fuel yl key in
                      Done (mkNode ky vy py yl' yr)
                  end
            end
      end
  end.

(** The node found, as the subtree it roots; [nullptr] when absent. *)
Fixpoint findNode (node : Node) (key : Key) : Node :=
  match node with
  | nullptr => nullptr
  | mkNode k _ _ l r =>
      if key =? k then node
      else if key <? k then findNode l key
      else findNode r key
  end.

Fixpoint height (node : Node) : nat :=
  match node with
  | nullptr => O
  | mkNode _ _ _ l r => S (Nat.max (height l) (height r))
  end.

(** The object: its only field is the root. *)
Record t : Type := mk { root : Node }.

Definition empty : t := mk nullptr.

(** Every node is deleted and the root reset. *)
Definition clear (m : t) : t := mk nullptr.

Definition insert (key : Key) (value : Value) (m : t) : M RandState t :=
  let! n := insertRecursive (root m) key value in ret (mk n).

(** Fuel for the recursion of [removeRecursive]: more than it ever uses. *)
Definition fuel_for (node : Node) : nat := S (2 * height node).

Definition remove (key : Key) (m : t) : outcome t :=
  let? n := removeRecursive (fuel_for (root m)) (root m) key in Done (mk n).

Definition find (key : Key) (defaultValue : Value) (m : t)
  : outcome (Value * t) :=
  match findNode (root m) key with
  | nullptr => Done (defaultValue, m)
  | mkNode _ v _ _ _ => Done (v, m)
  end.

Definition contains (key : Key) (m : t) : bool :=
  match findNode (root m) key with
  | nullptr => false
  | mkNode _ _ _ _ _ => true
  end.

End TreapMap.

(** ** TreapSet *)

Module TreapSet.

Inductive Node : Type :=
| nullptr
| mkNode (key : Z) (priority : Z) (left right : Node).

Definition rotateRight (y : Node) : outcome Node :=
  match y with
  | mkNode ky py (mkNode kx px T1 T2) T3 =>
      Done (mkNode kx px T1 (mkNode ky py T2 T3))
  | _ => Undefined
  end.

Definition rotateLeft (x : Node) : outcome Node :=
  match x with
  | mkNode kx px T1 (mkNode ky py T2 T3) =>
      Done (mkNode ky py (mkNode kx px T1 T2) T3)
  | _ => Undefined
  end.

(** [child != nullptr && child->priority > p] *)
Definition outranks (child : Node) (p : Z) : bool :=
  match child with
  | nullptr => false
  | mkNode _ pc _ _ => pc >? p
  end.

(** The private methods run on the field [nodeCount] of the object and,
    where a node is built, on the generator. *)
Definition count_up : M (Z * RandState) unit :=
  fun '(c, g) => let? c' := incr c in Done (tt, (c', g)).

Definition new_priority : M (Z * RandState) Z :=
  fun '(c, g) => let? pg := rand g in Done (fst pg, (c, snd pg)).

Definition count_down : M Z unit :=
  fun c => let? c' := decr c in Done (tt, c').

Fixpoint insertRecursive (node : Node) (key : Z)
  : M (Z * RandState) Node :=
  match node with
  | nullptr =>
      let! _ := count_up in
      let! p := new_priority in
      ret (mkNode key p nullptr nullptr)
  | mkNode k p l r =>
      if key <? k then
        let! l' := insertRecursive l key in
        if outranks l' p then lift (rotateRight (mkNode k p l' r))
        else ret (mkNode k p l' r)
      else if key >? k then
        let! r' := insertRecursive r key in
        if outranks r' p then lift (rotateLeft (mkNode k p l r'))
        else ret (mkNode k p l r')
      else ret node
  end.

Fixpoint removeRecursive (fuel : nat) (node : Node) (key : Z)
  : M Z Node :=
  match fuel with
  | O => fun _ => Timeout
  | S fuel =>
      match node with
      | nullptr => ret nullptr
      | mkNode k p l r =>
          if key <? k then
            let! l' := removeRecursive fuel l key in ret (mkNode k p l' r)
          else if key >? k then
            let! r' := removeRecursive fuel r key in ret (mkNode k p l r')
          else
            match l, r with
            | nullptr, _ => let! _ := count_down in ret r
            | _, nullptr => let! _ := count_down in ret l
            | mkNode _ pl _ _, mkNode _ pr _ _ =>
                if pl >? pr then
                  let! x := lift (rotateRight node) in
                  match x with
                  | nullptr => lift Undefined
                  | mkNode kx px xl xr =>
                      let! xr' := removeRecursive fuel xr key in
                      ret (mkNode kx px xl xr')
                  end
                else
                  let! y := lift (rotateLeft node) in
                  match y with
                  | nullptr => lift Undefined
                  | mkNode ky py yl yr =>
                      let! yl' := removeRecursive fuel yl key in
                      ret (mkNode ky py yl' yr)
                  end
            end
      end
  end.

Fixpoint memberRecursive (node : Node) (key : Z) : bool :=
  match node with
  | nullptr => false
  | mkNode k _ l r =>
      if key =? k then true
      else if key <? k then memberRecursive l key
      else memberRecursive r key
  end.

Fixpoint height (node : Node) : nat :=
  match node with
  | nullptr => O
  | mkNode _ _ l r => S (Nat.max (height l) (height r))
  end.

(** The object. *)
Record t : Type := mk { root : Node; nodeCount : Z }.

Definition empty : t := mk nullptr 0.

Definition clear (s : t) : t := mk nullptr 0.

Definition size (s : t) : Z := nodeCount s.

Definition member (key : Z) (s : t) : bool := memberRecursive (root s) key.

Definition insert (key : Z) (s : t) : M RandState t :=
  if negb (member key s) then
    fun g =>
      let? out := insertRecursive (root s) key (nodeCount s, g) in
      Done (mk (fst out) (fst (snd out)), snd (snd out))
  else ret s.

(** Fuel for the recursion of [removeRecursive]: more than it ever uses. *)
Definition fuel_for (node : Node) : nat := S (2 * height node).

Definition remove (key : Z) (s : t) : outcome t :=
  if member key s then
    let? out := removeRecursive (fuel_for (root s)) (root s) key (nodeCount s) in
    Done (mk (fst out) (snd out))
  else Done s.

End TreapSet.

(** ** Programs over a TreapMap

    A client owns one map and calls its public methods in sequence, as
    [main] does.  The observations of a tree used to state its properties
    (traversals, node count, heap order) are defined here as well. *)

Module MapClient.

Import TreapMap.

Inductive call : Type :=
| Insert (key : Key) (value : Value)
| Remove (key : Key)
| Clear
| Find (key : Key) (defaultValue : Value)
| Contains (key : Key).

Inductive answer : Type :=
| Void
| Str (v : Value)
| Bool (b : bool).

Definition perform (c : call) (m : t) : M RandState (answer * t) :=
  match c with
  | Insert key value => let! m' := insert key value m in ret (Void, m')
  | Remove key => let! m' := lift (remove key m) in ret (Void, m')
  | Clear => ret (Void, clear m)
  | Find key d => let! r := lift (find key d m) in ret (Str (fst r), snd r)
  | Contains key => ret (Bool (contains key m), m)
  end.

Fixpoint run (cs : list call) (m : t) : M RandState (list answer * t) :=
  match cs with
  | [] => ret ([], m)
  | c :: cs =>
      let! r := perform c m in
      let! rs := run cs (snd r) in
      ret (fst r :: fst rs, snd rs)
  end.

(** What the client has seen when the program ends. *)
Definition answers (o : outcome (list answer * t * RandState))
  : outcome (list answer) :=
  let? r := o in Done (fst (fst r)).

(** In-order traversal: the bindings, and the keys alone. *)
Fixpoint bindings (n : Node) : list (Key * Value) :=
  match n with
  | nullptr => []
  | mkNode k v _ l r => bindings l ++ (k, v) :: bindings r
  end.

Fixpoint in_order (n : Node) : list Key :=
  match n with
  | nullptr => []
  | mkNode k _ _ l r => in_order l ++ k :: in_order r
  end.

Fixpoint count_nodes (n : Node) : nat :=
  match n with
  | nullptr => O
  | mkNode _ _ _ l r => S (count_nodes l + count_nodes r)
  end.

(** Heap order: a present child's priority against its parent's [p]. *)
Definition child_le (p : Z) (c : Node) : Prop :=
  match c with
  | nullptr => True
  | mkNode _ _ pc _ _ => pc <= p
  end.

Definition child_lt (p : Z) (c : Node) : Prop :=
  match c with
  | nullptr => True
  | mkNode _ _ pc _ _ => pc < p
  end.

Fixpoint max_heap (n : Node) : Prop :=
  match n with
  | nullptr => True
  | mkNode _ _ p l r => child_le p l ∧ child_le p r ∧ max_heap l ∧ max_heap r
  end.

Fixpoint strict_max_heap (n : Node) : Prop :=
  match n with
  | nullptr => True
  | mkNode _ _ p l r =>
      child_lt p l ∧ child_lt p r ∧ strict_max_heap l ∧ strict_max_heap r
  end.

(** Two trees with the same nodes in the same places: equal keys and
    priorities everywhere, whatever the values. *)
Fixpoint same_shape (a b : Node) : Prop :=
  match a, b with
  | nullptr, nullptr => True
  | mkNode k _ p l r, mkNode k' _ p' l' r' =>
      k = k' ∧ p = p' ∧ same_shape l l' ∧ same_shape r r'
  | _, _ => False
  end.

(** The bindings a sequence of calls leaves in an abstract map. *)
Definition bound_after (S : gmap Z Value) (c : call) : gmap Z Value :=
  match c with
  | Insert key value => <[key:=value]> S
  | Remove key => delete key S
  | Clear => ∅
  | Find _ _ | Contains _ => S
  end.

Definition bound (cs : list call) : gmap Z Value := foldl bound_after ∅ cs.

(** The answer the abstract map gives to a call. *)
Definition reply (S : gmap Z Value) (c : call) : answer :=
  match c with
  | Find key d => Str (default d (S !! key))
  | Contains key => Bool (bool_decide (is_Some (S !! key)))
  | Insert _ _ | Remove _ | Clear => Void
  end.

Fixpoint replies (S : gmap Z Value) (cs : list call) : list answer :=
  match cs with
  | [] => []
  | c :: cs => reply S c :: replies (bound_after S c) cs
  end.

End MapClient.

(** ** Programs over a TreapSet *)

Module SetClient.

Import TreapSet.

Inductive call : Type :=
| Insert (key : Z)
| Remove (key : Z)
| Clear
| Member (key : Z)
| Size.

Inductive answer : Type :=
| Void
| Bool (b : bool)
| Int (n : Z).

Definition perform (c : call) (s : t) : M RandState (answer * t) :=
  match c with
  | Insert key => let! s' := insert key s in ret (Void, s')
  | Remove key => let! s' := lift (remove key s) in ret (Void, s')
  | Clear => ret (Void, clear s)
  | Member key => ret (Bool (member key s), s)
  | Size => ret (Int (size s), s)
  end.

Fixpoint run (cs : list call) (s : t) : M RandState (list answer * t) :=
  match cs with
  | [] => ret ([], s)
  | c :: cs =>
      let! r := perform c s in
      let! rs := run cs (snd r) in
      ret (fst r :: fst rs, snd rs)
  end.

Definition answers (o : outcome (list answer * t * RandState))
  : outcome (list answer) :=
  let? r := o in Done (fst (fst r)).

Fixpoint in_order (n : Node) : list Z :=
  match n with
  | nullptr => []
  | mkNode k _ l r => in_order l ++ k :: in_order r
  end.

Fixpoint count_nodes (n : Node) : nat :=
  match n with
  | nullptr => O
  | mkNode _ _ l r => S (count_nodes l + count_nodes r)
  end.

Definition child_le (p : Z) (c : Node) : Prop :=
  match c with
  | nullptr => True
  | mkNode _ pc _ _ => pc <= p
  end.

Definition child_lt (p : Z) (c : Node) : Prop :=
  match c with
  | nullptr => True
  | mkNode _ pc _ _ => pc < p
  end.

Fixpoint max_heap (n : Node) : Prop :=
  match n with
  | nullptr => True
  | mkNode _ p l r => child_le p l ∧ child_le p r ∧ max_heap l ∧ max_heap r
  end.

Fixpoint strict_max_heap (n : Node) : Prop :=
  match n with
  | nullptr => True
  | mkNode _ p l r =>
      child_lt p l ∧ child_lt p r ∧ strict_max_heap l ∧ strict_max_heap r
  end.

(** How far below the root the search for [key] finds its node. *)
Fixpoint depth_of (n : Node) (key : Z) : option nat :=
  match n with
  | nullptr => None
  | mkNode k _ l r =>
      if key =? k then Some O
      else if key <? k then S <$> depth_of l key
      else S <$> depth_of r key
  end.

(** The keys a sequence of calls leaves in an abstract set. *)
Definition stored_after (S : gset Z) (c : call) : gset Z :=
  match c with
  | Insert key => {[key]} ∪ S
  | Remove key => S ∖ {[key]}
  | Clear => ∅
  | Member _ | Size => S
  end.

Definition stored (cs : list call) : gset Z := foldl stored_after ∅ cs.

(** The abstract set as a program state: its answers, and the one call
    that is not defined, the insertion of a fresh key into a set that
    already holds [INT_MAX] keys. *)
Definition fits (S : gset Z) (c : call) : bool :=
  match c with
  | Insert key =>
      bool_decide (key ∈ S) || (Z.of_nat (base.size S) <? INT_MAX)
  | _ => true
  end.

Definition reply (S : gset Z) (c : call) : answer :=
  match c with
  | Member key => Bool (bool_decide (key ∈ S))
  | Size => Int (Z.of_nat (base.size S))
  | Insert _ | Remove _ | Clear => Void
  end.

Fixpoint replies (S : gset Z) (cs : list call) : outcome (list answer) :=
  match cs with
  | [] => Done []
  | c :: cs =>
      if fits S c then
        let? rs := replies (stored_after S c) cs in Done (reply S c :: rs)
      else Undefined
  end.

End SetClient.

(** ** Sample programs

    The two programs of the source's [main] functions, run with a generator
    whose first priorities are 7, 3, 7, 12, and a three-node subtree on
    which [removeRecursive] rotates. *)

Module Samples.

Definition gen : RandState :=
  fun n => match n with
           | 0%nat => 7
           | 1%nat => 3
           | 2%nat => 7
           | 3%nat => 12
           | _ => 5
           end.


Definition set_calls : list SetClient.call :=
  [SetClient.Insert 50; SetClient.Insert 30; SetClient.Insert 70;
   SetClient.Insert 20; SetClient.Member 30; SetClient.Member 99;
   SetClient.Size; SetClient.Remove 30; SetClient.Member 30;
   SetClient.Size].

Definition set_final : TreapSet.t :=
  Eval vm_compute in
    match SetClient.run set_calls TreapSet.empty gen with
    | Done (_, s, _) => s
    | _ => TreapSet.empty
    end.

Definition map_calls : list MapClient.call :=
  [MapClient.Insert 50 "Alejandro"; MapClient.Insert 30 "Beatriz";
   MapClient.Insert 70 "Carlos"; MapClient.Find 30 "N/A";
   MapClient.Find 99 "N/A"; MapClient.Insert 50 "Ana";
   MapClient.Find 50 "N/A"; MapClient.Remove 70; MapClient.Contains 70].

Definition map_final : TreapMap.t :=
  Eval vm_compute in
    match MapClient.run map_calls TreapMap.empty gen with
    | Done (_, m, _) => m
    | _ => TreapMap.empty
    end.

(** What the two programs print, and the generator [n] calls later. *)
Definition set_answers : list SetClient.answer :=
  Eval vm_compute in
    match SetClient.run set_calls TreapSet.empty gen with
    | Done (rs, _, _) => rs
    | _ => []
    end.

Definition map_answers : list MapClient.answer :=
  Eval vm_compute in
    match MapClient.run map_calls TreapMap.empty gen with
    | Done (rs, _, _) => rs
    | _ => []
    end.

Definition later (n : nat) (g : RandState) : RandState :=
  fun i => g (n + i)%nat.

(** Three insertions after which a child has its parent's priority. *)
Definition tie_calls : list SetClient.call :=
  [SetClient.Insert 50; SetClient.Insert 70; SetClient.Insert 30].

Definition tie_final : TreapSet.t :=
  TreapSet.mk
    (TreapSet.mkNode 50 7
       (TreapSet.mkNode 30 7 TreapSet.nullptr TreapSet.nullptr)
       (TreapSet.mkNode 70 3 TreapSet.nullptr TreapSet.nullptr))
    3.

(** A node with two children, the left one of higher priority. *)
Definition two_children : TreapSet.Node :=
  TreapSet.mkNode 50 9
    (TreapSet.mkNode 30 5 TreapSet.nullptr TreapSet.nullptr)
    (TreapSet.mkNode 70 3 TreapSet.nullptr TreapSet.nullptr).

Definition two_children_rotated : TreapSet.Node :=
  TreapSet.mkNode 30 5 TreapSet.nullptr
    (TreapSet.mkNode 50 9 TreapSet.nullptr
       (TreapSet.mkNode 70 3 TreapSet.nullptr TreapSet.nullptr)).

(** The removed node of [two_children_rotated], with what is below it. *)
Definition lowered : TreapSet.Node :=
  TreapSet.mkNode 50 9 TreapSet.nullptr
    (TreapSet.mkNode 70 3 TreapSet.nullptr TreapSet.nullptr).

(** The final states with key 60 inserted under [gen]. *)
Definition set_plus : TreapSet.t :=
  Eval vm_compute in
    match TreapSet.insert 60 set_final gen with
    | Done (s, _) => s
    | _ => TreapSet.empty
    end.

Definition map_plus : TreapMap.t :=
  Eval vm_compute in
    match TreapMap.insert 60 "Dora" map_final gen with
    | Done (m, _) => m
    | _ => TreapMap.empty
    end.

Definition two_children_map : TreapMap.Node :=
  TreapMap.mkNode 50 "Ana" 9
    (TreapMap.mkNode 30 "Beatriz" 5 TreapMap.nullptr TreapMap.nullptr)
    (TreapMap.mkNode 70 "Carlos" 3 TreapMap.nullptr TreapMap.nullptr).

End Samples.

(** ** The treap both classes implement

  The two classes are the same code up to the payload of a node.  The
  properties are proved once on [tree V], a treap whose nodes carry a
  payload of type [V]; [TreapMap] is the instance [V := string] and
  [TreapSet] the instance [V := unit] ([Map_abs] and [Set_abs] below). *)

Module Treap.

Inductive tree (V : Type) : Type :=
| E
| T (l : tree V) (k : Z) (v : V) (p : Z) (r : tree V).
Arguments E {V}.
Arguments T {V} l k v p r.

Section Generic.

Context {V : Type}.
Implicit Types (t l r : tree V) (k x : Z) (v : V) (p b : Z).

Fixpoint inorder t : list (Z * V) :=
  match t with
  | E => []
  | T l k v _ r => inorder l ++ (k, v) :: inorder r
  end.

Definition keys t : list Z := (inorder t).*1.

Definition tmap t : gmap Z V := list_to_map (inorder t).

Fixpoint nodes t : nat :=
  match t with
  | E => O
  | T l _ _ _ r => S (nodes l + nodes r)
  end.

Fixpoint height t : nat :=
  match t with
  | E => O
  | T l _ _ _ r => S (Nat.max (height l) (height r))
  end.

Fixpoint lookup t x : option V :=
  match t with
  | E => None
  | T l k v _ r =>
      if x =? k then Some v
      else if x <? k then lookup l x
      else lookup r x
  end.

Definition rotR t : tree V :=
  match t with
  | T (T a kx vx px c) ky vy py d => T a kx vx px (T c ky vy py d)
  | _ => t
  end.

Definition rotL t : tree V :=
  match t with
  | T a kx vx px (T c ky vy py d) => T (T a kx vx px c) ky vy py d
  | _ => t
  end.

Definition above t p : bool :=
  match t with
  | E => false
  | T _ _ _ pc _ => pc >? p
  end.

Fixpoint ins k v p t : tree V :=
  match t with
  | E => T E k v p E
  | T l k0 v0 p0 r =>
      if k <? k0 then
        let l' := ins k v p l in
        if above l' p0 then rotR (T l' k0 v0 p0 r) else T l' k0 v0 p0 r
      else if k >? k0 then
        let r' := ins k v p r in
        if above r' p0 then rotL (T l k0 v0 p0 r') else T l k0 v0 p0 r'
      else T l k0 v p0 r
  end.

(** What is left of a node once it has been rotated down to a leaf
    position and unlinked: its two subtrees, zipped by priority. *)
Fixpoint merge l : tree V -> tree V :=
  match l with
  | E => fun r => r
  | T a kl vl pl c =>
      fix merge_r (r : tree V) : tree V :=
        match r with
        | E => l
        | T d kr vr pr e =>
            if pl >? pr then T a kl vl pl (merge c r)
            else T (merge_r d) kr vr pr e
        end
  end.

Fixpoint rem k t : tree V :=
  match t with
  | E => E
  | T l k0 v0 p0 r =>
      if k <? k0 then T (rem k l) k0 v0 p0 r
      else if k >? k0 then T l k0 v0 p0 (rem k r)
      else merge l r
  end.

(** Search-tree order, node by node. *)
Fixpoint bst t : Prop :=
  match t with
  | E => True
  | T l k _ _ r =>
      bst l ∧ bst r ∧
      Forall (fun x => x < k) (keys l) ∧ Forall (fun x => k < x) (keys r)
  end.

(** Max-heap order on priorities, node by node; a tie is in order. *)
Definition below p t : Prop :=
  match t with
  | E => True
  | T _ _ _ pc _ => pc <= p
  end.

Fixpoint heap t : Prop :=
  match t with
  | E => True
  | T l _ _ p r => below p l ∧ below p r ∧ heap l ∧ heap r
  end.



Definition kids_below b t : Prop :=
  match t with
  | E => True
  | T a _ _ _ c => below b a ∧ below b c
  end.

Fixpoint upd k v t : tree V :=
  match t with
  | E => E
  | T l k0 v0 p0 r =>
      if k <? k0 then T (upd k v l) k0 v0 p0 r
      else if k >? k0 then T l k0 v0 p0 (upd k v r)
      else T l k0 v p0 r
  end.

End Generic.
End Treap.

(** ** TreapMap is the treap with string payloads *)

Module MapAbs.

Import TreapMap.

Fixpoint abs (n : Node) : Treap.tree Value :=
  match n with
  | nullptr => Treap.E
  | mkNode k v p l r => Treap.T (abs l) k v p (abs r)
  end.

Fixpoint conc (t : Treap.tree Value) : Node :=
  match t with
  | Treap.E => nullptr
  | Treap.T l k v p r => mkNode k v p (conc l) (conc r)
  end.

(** The bindings of a map, and what every state of a map satisfies. *)
Definition binds (m : t) : gmap Z Value := Treap.tmap (abs (root m)).

Definition inv (m : t) : Prop :=
  Treap.bst (abs (root m)) ∧ Treap.heap (abs (root m)).

End MapAbs.

(** ** TreapSet is the treap with no payload *)

Module SetAbs.

Import TreapSet.

Fixpoint abs (n : Node) : Treap.tree unit :=
  match n with
  | nullptr => Treap.E
  | mkNode k p l r => Treap.T (abs l) k tt p (abs r)
  end.

Fixpoint conc (t : Treap.tree unit) : Node :=
  match t with
  | Treap.E => nullptr
  | Treap.T l k _ p r => mkNode k p (conc l) (conc r)
  end.

(** The keys of a set, and what every state of a set satisfies. *)
Definition elems (s : t) : gset Z := dom (Treap.tmap (abs (root s))).

Definition inv (s : t) : Prop :=
  Treap.bst (abs (root s)) ∧ Treap.heap (abs (root s)) ∧
  nodeCount s = Z.of_nat (Treap.nodes (abs (root s))).

End SetAbs.

(** ** Further observations: priorities and teardown *)

Module Further.

(** The priorities of a tree, in order. *)
Fixpoint prios {V : Type} (t : Treap.tree V) : list Z :=
  match t with
  | Treap.E => []
  | Treap.T l _ _ p r => prios l ++ p :: prios r
  end.

Fixpoint set_priorities (n : TreapSet.Node) : list Z :=
  match n with
  | TreapSet.nullptr => []
  | TreapSet.mkNode _ p l r => set_priorities l ++ p :: set_priorities r
  end.

Fixpoint map_priorities (n : TreapMap.Node) : list Z :=
  match n with
  | TreapMap.nullptr => []
  | TreapMap.mkNode _ _ p l r => map_priorities l ++ p :: map_priorities r
  end.


(** [clearRecursive], as the sequence of the nodes it deletes, each named by
    its key: the left subtree, the right subtree, then the node itself. *)
Fixpoint set_clearRecursive (node : TreapSet.Node) : list Z :=
  match node with
  | TreapSet.nullptr => []
  | TreapSet.mkNode k _ l r =>
      set_clearRecursive l ++ set_clearRecursive r ++ [k]
  end.

Fixpoint map_clearRecursive (node : TreapMap.Node) : list TreapMap.Key :=
  match node with
  | TreapMap.nullptr => []
  | TreapMap.mkNode k _ _ l r =>
      map_clearRecursive l ++ map_clearRecursive r ++ [k]
  end.




End Further.

(** ** Properties of the treap *)

Module TreapFacts.

Import Treap.

#[local] Arguments rotR : simpl never.
#[local] Arguments rotL : simpl never.

Section Generic.
Context {V : Type}.
Implicit Types (t l r : tree V) (k x : Z) (v : V) (p b : Z).

Lemma keys_node l k v p r : keys (T l k v p r) = keys l ++ k :: keys r.
Proof. unfold keys. simpl. by rewrite fmap_app. Qed.

Lemma tmap_node l k v p r :
  tmap (T l k v p r) = tmap l ∪ <[k:=v]> (tmap r).
Proof. unfold tmap. simpl. by rewrite list_to_map_app. Qed.

Lemma tmap_None t x : x ∉ keys t → tmap t !! x = None.
Proof. apply not_elem_of_list_to_map_1. Qed.

Lemma tmap_is_Some t x : is_Some (tmap t !! x) → x ∈ keys t.
Proof.
  intros H. destruct (decide (x ∈ keys t)) as [|Hn]; [done|].
  apply tmap_None in Hn. rewrite Hn in H. by destruct H.
Qed.

Lemma inorder_rotR t : inorder (rotR t) = inorder t.
Proof.
  destruct t as [|[|a kx vx px c] ky vy py d]; simpl; try done.
  by rewrite <- app_assoc.
Qed.

Lemma inorder_rotL t : inorder (rotL t) = inorder t.
Proof.
  destruct t as [|a kx vx px [|c ky vy py d]]; simpl; try done.
  by rewrite <- app_assoc.
Qed.

Lemma bst_sorted t : bst t ↔ StronglySorted Z.lt (keys t).
Proof.
  induction t as [|l IHl k v p r IHr]; simpl.
  - split; [constructor|done].
  - rewrite keys_node, StronglySorted_app, StronglySorted_cons, IHl, IHr.
    rewrite !Forall_forall. split.
    + intros (Hl & Hr & Hlk & Hkr). repeat split; try done.
      intros x1 x2 H1 [->|H2]%elem_of_cons; [by apply Hlk|].
      specialize (Hlk _ H1). specialize (Hkr _ H2). lia.
    + intros (Hlr & Hl & Hkr & Hr). repeat split; try done.
      intros x Hx. apply (Hlr x k Hx). by left.
Qed.

Lemma bst_rotR t : bst t → bst (rotR t).
Proof.
  rewrite !bst_sorted. unfold keys. by rewrite inorder_rotR.
Qed.

Lemma bst_rotL t : bst t → bst (rotL t).
Proof.
  rewrite !bst_sorted. unfold keys. by rewrite inorder_rotL.
Qed.

Lemma keys_rotR t : keys (rotR t) = keys t.
Proof. unfold keys. by rewrite inorder_rotR. Qed.

Lemma keys_rotL t : keys (rotL t) = keys t.
Proof. unfold keys. by rewrite inorder_rotL. Qed.

Lemma tmap_rotR t : tmap (rotR t) = tmap t.
Proof. unfold tmap. by rewrite inorder_rotR. Qed.

Lemma tmap_rotL t : tmap (rotL t) = tmap t.
Proof. unfold tmap. by rewrite inorder_rotL. Qed.

Lemma keys_ins k v p t x : x ∈ keys (ins k v p t) ↔ x = k ∨ x ∈ keys t.
Proof.
  induction t as [|l IHl k0 v0 p0 r IHr]; simpl.
  - unfold keys. simpl. set_solver.
  - destruct (k <? k0) eqn:Hlt; [|destruct (k >? k0) eqn:Hgt].
    + destruct (above _ _); rewrite ?keys_rotR, !keys_node;
        rewrite !elem_of_app, !elem_of_cons, IHl; tauto.
    + destruct (above _ _); rewrite ?keys_rotL, !keys_node;
        rewrite !elem_of_app, !elem_of_cons, IHr; tauto.
    + assert (k = k0) as -> by lia.
      rewrite !keys_node, !elem_of_app, !elem_of_cons. tauto.
Qed.

Lemma bst_ins k v p t : bst t → bst (ins k v p t).
Proof.
  induction t as [|l IHl k0 v0 p0 r IHr]; simpl.
  - intros _. unfold keys. simpl. repeat split; constructor.
  - intros (Hl & Hr & Hlk & Hkr).
    destruct (k <? k0) eqn:Hlt; [|destruct (k >? k0) eqn:Hgt].
    + assert (bst (T (ins k v p l) k0 v0 p0 r)) as Hb.
      { simpl. repeat split; auto.
        apply Forall_forall. intros x [->|Hx]%keys_ins; [lia|].
        by apply (proj1 (Forall_forall _ _) Hlk). }
      destruct (above _ _); [by apply bst_rotR|done].
    + assert (bst (T l k0 v0 p0 (ins k v p r))) as Hb.
      { simpl. repeat split; auto.
        apply Forall_forall. intros x [->|Hx]%keys_ins; [lia|].
        by apply (proj1 (Forall_forall _ _) Hkr). }
      destruct (above _ _); [by apply bst_rotL|done].
    + simpl. done.
Qed.

Lemma tmap_left_None l k x : Forall (fun y => y < k) (keys l) → k <= x → tmap l !! x = None.
Proof.
  intros Hl Hx. apply tmap_None. intros Hin.
  apply (proj1 (Forall_forall _ _) Hl) in Hin. lia.
Qed.

Lemma tmap_right_None r k x : Forall (fun y => k < y) (keys r) → x <= k → tmap r !! x = None.
Proof.
  intros Hr Hx. apply tmap_None. intros Hin.
  apply (proj1 (Forall_forall _ _) Hr) in Hin. lia.
Qed.

Lemma tmap_ins k v p t : bst t → tmap (ins k v p t) = <[k:=v]> (tmap t).
Proof.
  induction t as [|l IHl k0 v0 p0 r IHr]; simpl.
  - intros _. unfold tmap. simpl. done.
  - intros (Hl & Hr & Hlk & Hkr).
    destruct (k <? k0) eqn:Hlt; [|destruct (k >? k0) eqn:Hgt].
    + assert (tmap (T (ins k v p l) k0 v0 p0 r) = <[k:=v]> (tmap (T l k0 v0 p0 r))) as Hm.
      { rewrite !tmap_node, IHl by done. by rewrite insert_union_l. }
      destruct (above _ _); [by rewrite tmap_rotR|done].
    + assert (tmap (T l k0 v0 p0 (ins k v p r)) = <[k:=v]> (tmap (T l k0 v0 p0 r))) as Hm.
      { rewrite !tmap_node, IHr by done.
        rewrite insert_union_r by (apply (tmap_left_None l k0); [done|lia]).
        f_equal. apply insert_insert_ne. lia. }
      destruct (above _ _); [by rewrite tmap_rotL|done].
    + assert (k = k0) as -> by lia.
      rewrite !tmap_node.
      rewrite insert_union_r by (apply (tmap_left_None l k0); [done|lia]).
      by rewrite insert_insert_eq.
Qed.

Lemma lookup_tmap t x : bst t → lookup t x = tmap t !! x.
Proof.
  induction t as [|l IHl k0 v0 p0 r IHr]; simpl.
  - intros _. unfold tmap. simpl. by rewrite lookup_empty.
  - intros (Hl & Hr & Hlk & Hkr). rewrite tmap_node.
    destruct (x =? k0) eqn:Heq; [|destruct (x <? k0) eqn:Hlt].
    + assert (x = k0) as -> by lia.
      rewrite lookup_union_r by (apply (tmap_left_None l k0); [done|lia]).
      by rewrite lookup_insert_eq.
    + rewrite IHl by done.
      destruct (tmap l !! x) as [w|] eqn:Hw.
      * symmetry. by apply lookup_union_Some_l.
      * rewrite lookup_union_r by done.
        rewrite lookup_insert_ne by lia.
        symmetry. apply (tmap_right_None r k0); [done|lia].
    + rewrite IHr by done.
      rewrite lookup_union_r by (apply (tmap_left_None l k0); [done|lia]).
      rewrite lookup_insert_ne by lia. done.
Qed.

Lemma inorder_merge l r : inorder (merge l r) = inorder l ++ inorder r.
Proof.
  revert r. induction l as [|a IHa kl vl pl c IHc]; intros r; [done|].
  induction r as [|d IHd kr vr pr e IHe].
  - simpl. by rewrite app_nil_r.
  - change (merge (T a kl vl pl c) (T d kr vr pr e))
      with (if pl >? pr then T a kl vl pl (merge c (T d kr vr pr e))
            else T (merge (T a kl vl pl c) d) kr vr pr e).
    destruct (pl >? pr).
    + change (inorder (T a kl vl pl (merge c (T d kr vr pr e))))
        with (inorder a ++ (kl, vl) :: inorder (merge c (T d kr vr pr e))).
      rewrite IHc. simpl. by rewrite <- app_assoc.
    + change (inorder (T (merge (T a kl vl pl c) d) kr vr pr e))
        with (inorder (merge (T a kl vl pl c) d) ++ (kr, vr) :: inorder e).
      rewrite IHd. simpl. by rewrite <- !app_assoc.
Qed.

Lemma keys_merge l r : keys (merge l r) = keys l ++ keys r.
Proof. unfold keys. by rewrite inorder_merge, fmap_app. Qed.

Lemma tmap_merge l r : tmap (merge l r) = tmap l ∪ tmap r.
Proof. unfold tmap. by rewrite inorder_merge, list_to_map_app. Qed.

Lemma bst_merge l k v p r : bst (T l k v p r) → bst (merge l r).
Proof.
  rewrite !bst_sorted, keys_node, keys_merge, !StronglySorted_app.
  rewrite StronglySorted_cons.
  intros (Hlr & Hl & _ & Hr). repeat split; try done.
  intros x1 x2 H1 H2. apply Hlr; [done|]. by right.
Qed.

Lemma keys_rem k t x : x ∈ keys (rem k t) → x ∈ keys t.
Proof.
  induction t as [|l IHl k0 v0 p0 r IHr]; simpl; [done|].
  destruct (k <? k0); [|destruct (k >? k0)];
    rewrite ?keys_merge, !keys_node, !elem_of_app, ?elem_of_cons;
    intuition auto.
Qed.

Lemma bst_rem k t : bst t → bst (rem k t).
Proof.
  induction t as [|l IHl k0 v0 p0 r IHr]; simpl; [done|].
  intros (Hl & Hr & Hlk & Hkr).
  destruct (k <? k0); [|destruct (k >? k0)].
  - simpl. repeat split; auto.
    apply Forall_forall. intros x Hx%keys_rem.
    by apply (proj1 (Forall_forall _ _) Hlk).
  - simpl. repeat split; auto.
    apply Forall_forall. intros x Hx%keys_rem.
    by apply (proj1 (Forall_forall _ _) Hkr).
  - by apply (bst_merge l k0 v0 p0 r).
Qed.

Lemma tmap_rem k t : bst t → tmap (rem k t) = delete k (tmap t).
Proof.
  induction t as [|l IHl k0 v0 p0 r IHr]; simpl.
  - intros _. unfold tmap. simpl. by rewrite delete_empty.
  - intros (Hl & Hr & Hlk & Hkr).
    destruct (k <? k0) eqn:Hlt; [|destruct (k >? k0) eqn:Hgt].
    + rewrite !tmap_node, IHl, delete_union by done. f_equal.
      symmetry. apply delete_id. rewrite lookup_insert_ne by lia.
      apply (tmap_right_None r k0); [done|lia].
    + rewrite !tmap_node, IHr, delete_union by done.
      rewrite (delete_id (tmap l))
        by (apply (tmap_left_None l k0); [done|lia]).
      f_equal. rewrite delete_insert_ne by lia. done.
    + assert (k = k0) as -> by lia.
      rewrite tmap_merge, tmap_node, delete_union.
      rewrite (delete_id (tmap l))
        by (apply (tmap_left_None l k0); [done|lia]).
      f_equal. rewrite delete_insert_eq. symmetry. apply delete_id.
      apply (tmap_right_None r k0); [done|lia].
Qed.

Lemma rem_absent k t : lookup t k = None → rem k t = t.
Proof.
  induction t as [|l IHl k0 v0 p0 r IHr]; simpl; [done|].
  destruct (k =? k0) eqn:Heq; [done|].
  destruct (k <? k0) eqn:Hlt.
  - intros H. by rewrite IHl.
  - intros H. assert ((k >? k0) = true) as -> by lia. by rewrite IHr.
Qed.

Lemma length_inorder t : length (inorder t) = nodes t.
Proof.
  induction t as [|l IHl k0 v0 p0 r IHr]; simpl; [done|].
  rewrite length_app. simpl. lia.
Qed.

Lemma length_keys t : length (keys t) = nodes t.
Proof. unfold keys. by rewrite length_fmap, length_inorder. Qed.

Lemma sorted_NoDup (ks : list Z) : StronglySorted Z.lt ks → NoDup ks.
Proof.
  induction 1 as [|a ks Hs IH Ha]; constructor; [|done].
  intros Hin. apply (proj1 (Forall_forall _ _) Ha) in Hin. lia.
Qed.

Lemma bst_NoDup t : bst t → NoDup (keys t).
Proof. rewrite bst_sorted. apply sorted_NoDup. Qed.

Lemma size_tmap t : bst t → size (tmap t) = nodes t.
Proof.
  intros Hb. unfold tmap. rewrite map_size_list_to_map.
  - apply length_inorder.
  - by apply bst_NoDup.
Qed.

Lemma dom_tmap t : dom (tmap t) = list_to_set (keys t).
Proof. unfold tmap, keys. apply dom_list_to_map_L. Qed.

Lemma below_mono p b t : below p t → p <= b → below b t.
Proof. destruct t; simpl; [done|lia]. Qed.

Lemma below_not_above p t : below p t → above t p = false.
Proof. destruct t; simpl; [done|lia]. Qed.

Lemma not_above_below p t : above t p = false → below p t.
Proof. destruct t; simpl; [done|lia]. Qed.

Lemma heap_rotR l k v p r :
  heap l → heap r → below p r → kids_below p l → above l p = true →
  heap (rotR (T l k v p r)).
Proof.
  destruct l as [|a kx vx px c]; [done|]. unfold rotR. simpl.
  intros (Ha1 & Ha2 & Ha & Hc) Hr Hpr (Hka & Hkc) Hab.
  repeat split; try done. lia.
Qed.

Lemma heap_rotL l k v p r :
  heap l → heap r → below p l → kids_below p r → above r p = true →
  heap (rotL (T l k v p r)).
Proof.
  destruct r as [|c ky vy py d]; [done|]. unfold rotL. simpl.
  intros Hl (Hc1 & Hc2 & Hc & Hd) Hpl (Hkc & Hkd) Hab.
  repeat split; try done. lia.
Qed.

Lemma ins_heap k v p t b :
  heap t → below b t → heap (ins k v p t) ∧ kids_below b (ins k v p t).
Proof.
  revert b. induction t as [|l IHl k0 v0 p0 r IHr]; intros b; simpl.
  - done.
  - intros (Hbl & Hbr & Hl & Hr) Hb.
    destruct (k <? k0); [|destruct (k >? k0)].
    + destruct (IHl p0 Hl Hbl) as [Hh Hk].
      destruct (above (ins k v p l) p0) eqn:Hab.
      * split; [by apply heap_rotR|].
        destruct (ins k v p l) as [|a kx vx px c]; [done|].
        unfold rotR. simpl in *. destruct Hk as [Hka Hkc].
        split; [by apply (below_mono p0)|lia].
      * apply not_above_below in Hab. simpl. repeat split; try done.
        -- by apply (below_mono p0).
        -- by apply (below_mono p0).
    + destruct (IHr p0 Hr Hbr) as [Hh Hk].
      destruct (above (ins k v p r) p0) eqn:Hab.
      * split; [by apply heap_rotL|].
        destruct (ins k v p r) as [|c ky vy py d]; [done|].
        unfold rotL. simpl in *. destruct Hk as [Hkc Hkd].
        split; [lia|by apply (below_mono p0)].
      * apply not_above_below in Hab. simpl. repeat split; try done.
        -- by apply (below_mono p0).
        -- by apply (below_mono p0).
    + simpl. repeat split; try done; by apply (below_mono p0).
Qed.

Lemma heap_ins k v p t : heap t → heap (ins k v p t).
Proof.
  intros Hh. destruct t as [|l k0 v0 p0 r]; [done|].
  apply (ins_heap k v p _ p0); [done|]. simpl. lia.
Qed.

Lemma below_merge b l r : below b l → below b r → below b (merge l r).
Proof.
  destruct l as [|a kl vl pl c]; [done|].
  destruct r as [|d kr vr pr e]; [done|].
  simpl. destruct (pl >? pr); done.
Qed.

Lemma heap_merge l r : heap l → heap r → heap (merge l r).
Proof.
  revert r. induction l as [|a IHa kl vl pl c IHc]; intros r; [done|].
  induction r as [|d IHd kr vr pr e IHe]; [done|].
  intros Hl Hr.
  change (merge (T a kl vl pl c) (T d kr vr pr e))
    with (if pl >? pr then T a kl vl pl (merge c (T d kr vr pr e))
          else T (merge (T a kl vl pl c) d) kr vr pr e).
  destruct (pl >? pr) eqn:Hp.
  - destruct Hl as (Ha1 & Hc1 & Ha & Hc).
    change (below pl a ∧ below pl (merge c (T d kr vr pr e)) ∧
            heap a ∧ heap (merge c (T d kr vr pr e))).
    repeat split; try done.
    + apply below_merge; [done|]. simpl. lia.
    + by apply IHc.
  - destruct Hr as (Hd1 & He1 & Hd & He).
    change (below pr (merge (T a kl vl pl c) d) ∧ below pr e ∧
            heap (merge (T a kl vl pl c) d) ∧ heap e).
    repeat split; try done.
    + apply below_merge; [|done]. simpl. lia.
    + by apply IHd.
Qed.

Lemma rem_heap k t :
  heap t → heap (rem k t) ∧ ∀ b, below b t → below b (rem k t).
Proof.
  induction t as [|l IHl k0 v0 p0 r IHr]; simpl; [done|].
  intros (Hbl & Hbr & Hl & Hr).
  destruct (IHl Hl) as [Hhl Hml]. destruct (IHr Hr) as [Hhr Hmr].
  destruct (k <? k0); [|destruct (k >? k0)]; simpl.
  - repeat split; auto.
  - repeat split; auto.
  - split; [by apply heap_merge|].
    intros b Hb. apply below_merge; by apply (below_mono p0).
Qed.

Lemma heap_rem k t : heap t → heap (rem k t).
Proof. intros H. by apply rem_heap. Qed.

Lemma above_upd k v t p : above (upd k v t) p = above t p.
Proof.
  destruct t as [|l k0 v0 p0 r]; simpl; [done|].
  destruct (k <? k0); [|destruct (k >? k0)]; done.
Qed.

Lemma ins_present k v p t :
  heap t → is_Some (lookup t k) → ins k v p t = upd k v t.
Proof.
  induction t as [|l IHl k0 v0 p0 r IHr]; simpl.
  - intros _ [? ?]. done.
  - intros (Hbl & Hbr & Hl & Hr).
    destruct (k =? k0) eqn:Heq.
    + assert ((k <? k0) = false) as -> by lia.
      assert ((k >? k0) = false) as -> by lia. done.
    + destruct (k <? k0) eqn:Hlt.
      * intros Hs. rewrite IHl by done.
        by rewrite above_upd, below_not_above.
      * assert ((k >? k0) = true) as -> by lia.
        intros Hs. rewrite IHr by done.
        by rewrite above_upd, below_not_above.
Qed.

Lemma upd_same k v t : lookup t k = Some v → upd k v t = t.
Proof.
  induction t as [|l IHl k0 v0 p0 r IHr]; simpl; [done|].
  destruct (k =? k0) eqn:Heq.
  - assert ((k <? k0) = false) as -> by lia.
    assert ((k >? k0) = false) as -> by lia. by intros [= ->].
  - destruct (k <? k0) eqn:Hlt.
    + intros H. by rewrite IHl.
    + assert ((k >? k0) = true) as -> by lia.
      intros H. by rewrite IHr.
Qed.

Lemma keys_upd k v t : keys (upd k v t) = keys t.
Proof.
  induction t as [|l IHl k0 v0 p0 r IHr]; simpl; [done|].
  destruct (k <? k0); [|destruct (k >? k0)];
    rewrite !keys_node; congruence.
Qed.

Lemma nodes_upd k v t : nodes (upd k v t) = nodes t.
Proof.
  induction t as [|l IHl k0 v0 p0 r IHr]; simpl; [done|].
  destruct (k <? k0); [|destruct (k >? k0)]; simpl; lia.
Qed.

End Generic.
End TreapFacts.

(** ** TreapMap runs the treap *)

Module MapFacts.

Import TreapMap MapAbs.

#[local] Arguments rotateRight : simpl never.
#[local] Arguments rotateLeft : simpl never.

Lemma map_conc_abs n : conc (abs n) = n.
Proof. induction n; simpl; congruence. Qed.

Lemma map_abs_conc t : abs (conc t) = t.
Proof. induction t; simpl; congruence. Qed.

Lemma map_height_abs n : Treap.height (abs n) = height n.
Proof. induction n; simpl; congruence. Qed.

Lemma map_outranks_conc t p : outranks (conc t) p = Treap.above t p.
Proof. by destruct t. Qed.

Lemma map_rotateRight_conc l k v p r :
  Treap.above l p = true →
  rotateRight (mkNode k v p (conc l) (conc r))
  = Done (conc (Treap.rotR (Treap.T l k v p r))).
Proof. by destruct l. Qed.

Lemma map_rotateLeft_conc l k v p r :
  Treap.above r p = true →
  rotateLeft (mkNode k v p (conc l) (conc r))
  = Done (conc (Treap.rotL (Treap.T l k v p r))).
Proof. by destruct r. Qed.

Lemma map_insertRecursive_conc t key value g :
  insertRecursive (conc t) key value g
  = Done (conc (Treap.ins key value (g O) t),
          match Treap.lookup t key with Some _ => g | None => next g end).
Proof.
  induction t as [|l IHl k v p r IHr]; simpl; [done|].
  destruct (key =? k) eqn:Heq.
  - assert ((key <? k) = false) as -> by lia.
    assert ((key >? k) = false) as -> by lia. done.
  - destruct (key <? k) eqn:Hlt.
    + unfold bind. rewrite IHl, map_outranks_conc.
      destruct (Treap.above _ p) eqn:Hab; [|done].
      unfold lift. by rewrite map_rotateRight_conc.
    + assert ((key >? k) = true) as -> by lia.
      unfold bind. rewrite IHr, map_outranks_conc.
      destruct (Treap.above _ p) eqn:Hab; [|done].
      unfold lift. by rewrite map_rotateLeft_conc.
Qed.

Lemma map_removeRecursive_found fuel l r k v p :
  (Treap.height l + Treap.height r < fuel)%nat →
  removeRecursive fuel (mkNode k v p (conc l) (conc r)) k
  = Done (conc (Treap.merge l r)).
Proof.
  revert l r. induction fuel as [|fuel IH]; intros l r Hf; [lia|].
  cbn [removeRecursive].
  assert ((k <? k) = false) as -> by lia.
  assert ((k >? k) = false) as -> by lia.
  destruct l as [|a kl vl pl c]; [done|].
  destruct r as [|d kr vr pr e]; [done|].
  change (Treap.merge (Treap.T a kl vl pl c) (Treap.T d kr vr pr e))
    with (if pl >? pr
          then Treap.T a kl vl pl (Treap.merge c (Treap.T d kr vr pr e))
          else Treap.T (Treap.merge (Treap.T a kl vl pl c) d) kr vr pr e).
  cbn [conc]. destruct (pl >? pr).
  - unfold rotateRight. cbn [obind].
    change (mkNode k v p (conc c) (mkNode kr vr pr (conc d) (conc e)))
      with (mkNode k v p (conc c) (conc (Treap.T d kr vr pr e))).
    rewrite IH; [done|]. simpl in *. lia.
  - unfold rotateLeft. cbn [obind].
    change (mkNode k v p (mkNode kl vl pl (conc a) (conc c)) (conc d))
      with (mkNode k v p (conc (Treap.T a kl vl pl c)) (conc d)).
    rewrite IH; [done|]. simpl in *. lia.
Qed.

Lemma map_removeRecursive_conc fuel t key :
  (2 * Treap.height t < fuel)%nat →
  removeRecursive fuel (conc t) key = Done (conc (Treap.rem key t)).
Proof.
  revert fuel. induction t as [|l IHl k v p r IHr]; intros fuel Hf.
  - destruct fuel; [lia|done].
  - destruct fuel as [|fuel]; [lia|]. simpl in Hf.
    destruct (decide (key = k)) as [->|Hne].
    + simpl Treap.rem.
      assert ((k <? k) = false) as -> by lia.
      assert ((k >? k) = false) as -> by lia.
      apply (map_removeRecursive_found (S fuel)). lia.
    + cbn [conc removeRecursive Treap.rem].
      destruct (key <? k) eqn:Hlt.
      * rewrite IHl by lia. done.
      * assert ((key >? k) = true) as -> by lia.
        rewrite IHr by lia. done.
Qed.

Lemma map_findNode_Some t key v :
  Treap.lookup t key = Some v →
  ∃ k p l r, findNode (conc t) key = mkNode k v p l r.
Proof.
  induction t as [|l IHl k0 v0 p0 r IHr]; simpl; [done|].
  destruct (key =? k0); [intros [= ->]; eauto|].
  destruct (key <? k0); auto.
Qed.

Lemma map_findNode_None t key :
  Treap.lookup t key = None → findNode (conc t) key = nullptr.
Proof.
  induction t as [|l IHl k0 v0 p0 r IHr]; simpl; [done|].
  destruct (key =? k0); [done|]. destruct (key <? k0); auto.
Qed.

End MapFacts.

(** ** TreapSet runs the treap *)

Module SetFacts.

Import TreapSet SetAbs.

#[local] Arguments rotateRight : simpl never.
#[local] Arguments rotateLeft : simpl never.

Lemma set_conc_abs n : conc (abs n) = n.
Proof. induction n; simpl; congruence. Qed.

Lemma set_abs_conc t : abs (conc t) = t.
Proof. induction t as [|l IHl k [] p r IHr]; simpl; congruence. Qed.

Lemma set_height_abs n : Treap.height (abs n) = height n.
Proof. induction n; simpl; congruence. Qed.

Lemma set_outranks_conc t p : outranks (conc t) p = Treap.above t p.
Proof. by destruct t. Qed.

Lemma set_rotateRight_conc l k v p r :
  Treap.above l p = true →
  rotateRight (mkNode k p (conc l) (conc r))
  = Done (conc (Treap.rotR (Treap.T l k v p r))).
Proof. by destruct l. Qed.

Lemma set_rotateLeft_conc l k v p r :
  Treap.above r p = true →
  rotateLeft (mkNode k p (conc l) (conc r))
  = Done (conc (Treap.rotL (Treap.T l k v p r))).
Proof. by destruct r. Qed.

Lemma set_insertRecursive_conc t key c g :
  insertRecursive (conc t) key (c, g)
  = match Treap.lookup t key with
    | Some _ => Done (conc (Treap.ins key tt (g O) t), (c, g))
    | None =>
        let? c' := incr c in
        Done (conc (Treap.ins key tt (g O) t), (c', next g))
    end.
Proof.
  induction t as [|l IHl k [] p r IHr]; simpl.
  - unfold bind, count_up. by destruct (incr c).
  - destruct (key =? k) eqn:Heq.
    + assert ((key <? k) = false) as -> by lia.
      assert ((key >? k) = false) as -> by lia. done.
    + destruct (key <? k) eqn:Hlt.
      * unfold bind. rewrite IHl.
        destruct (Treap.lookup l key); [|destruct (incr c); try done];
          simpl; rewrite set_outranks_conc;
          (destruct (Treap.above _ p) eqn:Hab; [|done]);
          unfold lift; by rewrite (set_rotateRight_conc _ _ tt).
      * assert ((key >? k) = true) as -> by lia.
        unfold bind. rewrite IHr.
        destruct (Treap.lookup r key); [|destruct (incr c); try done];
          simpl; rewrite set_outranks_conc;
          (destruct (Treap.above _ p) eqn:Hab; [|done]);
          unfold lift; by rewrite (set_rotateLeft_conc _ _ tt).
Qed.

Lemma set_removeRecursive_found fuel l r k p c :
  (Treap.height l + Treap.height r < fuel)%nat →
  removeRecursive fuel (mkNode k p (conc l) (conc r)) k c
  = let? c' := decr c in Done (conc (Treap.merge l r), c').
Proof.
  revert l r c. induction fuel as [|fuel IH]; intros l r c Hf; [lia|].
  cbn [removeRecursive].
  assert ((k <? k) = false) as -> by lia.
  assert ((k >? k) = false) as -> by lia.
  destruct l as [|a kl [] pl e]; cbn [conc].
  { unfold bind, count_down, ret. by destruct (decr c). }
  destruct r as [|d kr [] pr f]; cbn [conc].
  { unfold bind, count_down, ret. by destruct (decr c). }
  change (Treap.merge (Treap.T a kl tt pl e) (Treap.T d kr tt pr f))
    with (if pl >? pr
          then Treap.T a kl tt pl (Treap.merge e (Treap.T d kr tt pr f))
          else Treap.T (Treap.merge (Treap.T a kl tt pl e) d) kr tt pr f).
  destruct (pl >? pr).
  - unfold rotateRight, bind, lift, ret. cbn [obind].
    change (mkNode k p (conc e) (mkNode kr pr (conc d) (conc f)))
      with (mkNode k p (conc e) (conc (Treap.T d kr tt pr f))).
    rewrite IH by (simpl in *; lia). by destruct (decr c).
  - unfold rotateLeft, bind, lift, ret. cbn [obind].
    change (mkNode k p (mkNode kl pl (conc a) (conc e)) (conc d))
      with (mkNode k p (conc (Treap.T a kl tt pl e)) (conc d)).
    rewrite IH by (simpl in *; lia). by destruct (decr c).
Qed.

Lemma set_removeRecursive_conc fuel t key c :
  (2 * Treap.height t < fuel)%nat →
  removeRecursive fuel (conc t) key c
  = match Treap.lookup t key with
    | Some _ => let? c' := decr c in Done (conc (Treap.rem key t), c')
    | None => Done (conc (Treap.rem key t), c)
    end.
Proof.
  revert fuel. induction t as [|l IHl k [] p r IHr]; intros fuel Hf.
  - destruct fuel; [lia|done].
  - destruct fuel as [|fuel]; [lia|]. simpl in Hf.
    destruct (decide (key = k)) as [->|Hne].
    + simpl Treap.rem. simpl Treap.lookup.
      assert ((k =? k) = true) as -> by lia.
      assert ((k <? k) = false) as -> by lia.
      assert ((k >? k) = false) as -> by lia.
      apply (set_removeRecursive_found (S fuel)). lia.
    + cbn [conc removeRecursive Treap.rem Treap.lookup].
      assert ((key =? k) = false) as -> by lia.
      destruct (key <? k) eqn:Hlt.
      * unfold bind. rewrite IHl by lia.
        destruct (Treap.lookup l key); [destruct (decr c)|]; done.
      * assert ((key >? k) = true) as -> by lia.
        unfold bind. rewrite IHr by lia.
        destruct (Treap.lookup r key); [destruct (decr c)|]; done.
Qed.

Lemma set_memberRecursive_conc t key :
  memberRecursive (conc t) key
  = match Treap.lookup t key with Some _ => true | None => false end.
Proof.
  induction t as [|l IHl k [] p r IHr]; simpl; [done|].
  destruct (key =? k); [done|]. destruct (key <? k); done.
Qed.

End SetFacts.

(** ** Programs over a TreapSet refine the abstract set *)

Module SetClientFacts.

Import TreapSet SetAbs SetClient SetFacts.

Lemma set_in_order_abs n : in_order n = Treap.keys (abs n).
Proof.
  induction n as [|k p l IHl r IHr]; [done|].
  simpl. by rewrite TreapFacts.keys_node, IHl, IHr.
Qed.

Lemma set_count_nodes_abs n : count_nodes n = Treap.nodes (abs n).
Proof. induction n; simpl; congruence. Qed.

Lemma set_child_le_abs p n : child_le p n ↔ Treap.below p (abs n).
Proof. by destruct n. Qed.

Lemma set_max_heap_abs n : max_heap n ↔ Treap.heap (abs n).
Proof.
  induction n as [|k p l IHl r IHr]; [done|].
  simpl. by rewrite !set_child_le_abs, IHl, IHr.
Qed.

Lemma set_insert_conc key t c g :
  insert key (mk (conc t) c) g
  = match Treap.lookup t key with
    | Some _ => Done (mk (conc t) c, g)
    | None =>
        let? c' := incr c in
        Done (mk (conc (Treap.ins key tt (g O) t)) c', next g)
    end.
Proof.
  unfold insert, member. cbn [root nodeCount]. rewrite set_memberRecursive_conc.
  destruct (Treap.lookup t key) eqn:Hl; [done|].
  simpl. rewrite set_insertRecursive_conc, Hl. by destruct (incr c).
Qed.

Lemma set_remove_conc key t c :
  remove key (mk (conc t) c)
  = match Treap.lookup t key with
    | Some _ => let? c' := decr c in Done (mk (conc (Treap.rem key t)) c')
    | None => Done (mk (conc t) c)
    end.
Proof.
  unfold remove, member. cbn [root nodeCount]. rewrite set_memberRecursive_conc.
  destruct (Treap.lookup t key) eqn:Hl; [|done].
  rewrite set_removeRecursive_conc, Hl.
  - by destruct (decr c).
  - unfold fuel_for. rewrite <- (set_height_abs (conc t)), set_abs_conc. lia.
Qed.

Lemma set_lookup_elems s key :
  inv s →
  match Treap.lookup (abs (root s)) key with
  | Some _ => key ∈ elems s
  | None => key ∉ elems s
  end.
Proof.
  intros (Hb & _ & _). unfold elems.
  rewrite (TreapFacts.lookup_tmap _ _ Hb).
  destruct (Treap.tmap (abs (root s)) !! key) eqn:Hk.
  - apply elem_of_dom. eauto.
  - by apply not_elem_of_dom.
Qed.

Lemma set_member_elems s key : inv s → member key s = bool_decide (key ∈ elems s).
Proof.
  intros Hi. unfold member. rewrite <- (set_conc_abs (root s)).
  rewrite set_memberRecursive_conc. pose proof (set_lookup_elems s key Hi) as H.
  destruct (Treap.lookup (abs (root s)) key).
  - by rewrite bool_decide_eq_true_2.
  - by rewrite bool_decide_eq_false_2.
Qed.

Lemma set_size_elems s : inv s → size s = Z.of_nat (base.size (elems s)).
Proof.
  intros (Hb & _ & Hc). unfold size, elems.
  by rewrite size_dom, TreapFacts.size_tmap.
Qed.

Lemma set_inv_empty : inv empty.
Proof. repeat split. Qed.

Lemma set_elems_empty : elems empty = ∅.
Proof. unfold elems. simpl. unfold Treap.tmap. simpl. apply dom_empty_L. Qed.

Lemma set_insert_abs key s g :
  insert key s g
  = match Treap.lookup (abs (root s)) key with
    | Some _ => Done (s, g)
    | None =>
        let? c' := incr (nodeCount s) in
        Done (mk (conc (Treap.ins key tt (g O) (abs (root s)))) c', next g)
    end.
Proof.
  destruct s as [n c]. cbn [root nodeCount].
  rewrite <- (set_conc_abs n) at 1. rewrite set_insert_conc. by rewrite set_conc_abs.
Qed.

Lemma set_remove_abs key s :
  remove key s
  = match Treap.lookup (abs (root s)) key with
    | Some _ =>
        let? c' := decr (nodeCount s) in
        Done (mk (conc (Treap.rem key (abs (root s)))) c')
    | None => Done s
    end.
Proof.
  destruct s as [n c]. cbn [root nodeCount].
  rewrite <- (set_conc_abs n) at 1. rewrite set_remove_conc. by rewrite set_conc_abs.
Qed.

Lemma set_insert_fresh_inv key p s :
  inv s → key ∉ elems s →
  let s' := mk (conc (Treap.ins key tt p (abs (root s)))) (nodeCount s + 1) in
  inv s' ∧ elems s' = {[key]} ∪ elems s.
Proof.
  intros (Hb & Hh & Hc) Hk. unfold inv, elems in *. cbn [root nodeCount].
  rewrite set_abs_conc. split; [repeat split|].
  - by apply TreapFacts.bst_ins.
  - by apply TreapFacts.heap_ins.
  - rewrite <- TreapFacts.size_tmap by (by apply TreapFacts.bst_ins).
    rewrite TreapFacts.tmap_ins by done.
    rewrite map_size_insert_None by (by apply not_elem_of_dom).
    rewrite TreapFacts.size_tmap by done. lia.
  - rewrite TreapFacts.tmap_ins by done. apply dom_insert_L.
Qed.

Lemma set_remove_present_inv key s :
  inv s → key ∈ elems s →
  let s' := mk (conc (Treap.rem key (abs (root s)))) (nodeCount s - 1) in
  inv s' ∧ elems s' = elems s ∖ {[key]}.
Proof.
  intros (Hb & Hh & Hc) Hk. unfold inv, elems in *. cbn [root nodeCount].
  rewrite set_abs_conc. split; [repeat split|].
  - by apply TreapFacts.bst_rem.
  - by apply TreapFacts.heap_rem.
  - rewrite <- TreapFacts.size_tmap by (by apply TreapFacts.bst_rem).
    rewrite TreapFacts.tmap_rem by done.
    apply elem_of_dom in Hk.
    rewrite map_size_delete_Some by done.
    pose proof (TreapFacts.size_tmap _ Hb) as Hs.
    destruct Hk as [w Hw].
    assert (base.size (Treap.tmap (abs (root s))) ≠ 0%nat) as Hnz.
    { intros Hz. apply map_size_empty_inv in Hz. rewrite Hz in Hw.
      by rewrite lookup_empty in Hw. }
    lia.
  - rewrite TreapFacts.tmap_rem by done. apply dom_delete_L.
Qed.

Lemma set_perform_refines c s g :
  inv s →
  if fits (elems s) c
  then ∃ s' g', perform c s g = Done ((reply (elems s) c, s'), g')
                ∧ inv s' ∧ elems s' = stored_after (elems s) c
  else perform c s g = Undefined.
Proof.
  intros Hi. pose proof (set_size_elems s Hi) as Hsz. unfold size in Hsz.
  destruct c as [key|key| |key|]; cbn [fits reply stored_after perform].
  - pose proof (set_lookup_elems s key Hi) as Hl.
    unfold bind. rewrite set_insert_abs.
    destruct (Treap.lookup (abs (root s)) key).
    + rewrite bool_decide_eq_true_2 by done. cbn [orb].
      exists s, g. repeat split; try apply Hi. set_solver.
    + rewrite bool_decide_eq_false_2 by done. cbn [orb].
      rewrite <- Hsz. unfold incr.
      destruct (nodeCount s <? INT_MAX); [|done].
      cbn [obind fst snd]. eexists _, _. split; [done|].
      by apply set_insert_fresh_inv.
  - pose proof (set_lookup_elems s key Hi) as Hl.
    unfold bind, lift. rewrite set_remove_abs.
    destruct (Treap.lookup (abs (root s)) key).
    + unfold decr. assert ((INT_MIN <? nodeCount s) = true) as ->.
      { unfold INT_MIN. lia. }
      cbn [obind]. eexists _, _. split; [done|].
      by apply set_remove_present_inv.
    + exists s, g. repeat split; try apply Hi. set_solver.
  - exists empty, g. split; [done|]. split; [apply set_inv_empty|apply set_elems_empty].
  - exists s, g. rewrite set_member_elems by done. done.
  - exists s, g. unfold size. rewrite Hsz. done.
Qed.

Lemma set_run_cons c cs s g :
  run (c :: cs) s g
  = match perform c s g with
    | Done (r, g1) =>
        match run cs (snd r) g1 with
        | Done (rs, g') => Done ((fst r :: fst rs, snd rs), g')
        | Undefined => Undefined
        | Timeout => Timeout
        end
    | Undefined => Undefined
    | Timeout => Timeout
    end.
Proof.
  cbn [run]. unfold bind, ret.
  destruct (perform c s g) as [[r g1]| |]; [|done|done].
  by destruct (run cs r.2 g1) as [[rs g']| |].
Qed.

Lemma set_run_refines cs s g :
  inv s →
  match replies (elems s) cs with
  | Done rs => ∃ s' g', run cs s g = Done ((rs, s'), g')
                        ∧ inv s' ∧ elems s' = foldl stored_after (elems s) cs
  | Undefined => run cs s g = Undefined
  | Timeout => False
  end.
Proof.
  revert s g. induction cs as [|c cs IH]; intros s g Hi.
  - simpl. by exists s, g.
  - rewrite set_run_cons. cbn [replies foldl].
    pose proof (set_perform_refines c s g Hi) as Hp.
    destruct (fits (elems s) c); [|by rewrite Hp].
    destruct Hp as (s1 & g1 & -> & Hi1 & He1). cbn [snd fst].
    specialize (IH s1 g1 Hi1). rewrite He1 in IH.
    destruct (replies (stored_after (elems s) c) cs) as [rs| |]; cbn [obind].
    + destruct IH as (s' & g' & -> & Hi' & He'). by exists s', g'.
    + by rewrite IH.
    + done.
Qed.

Lemma set_answers_run cs s g :
  inv s → answers (run cs s g) = replies (elems s) cs.
Proof.
  intros Hi. pose proof (set_run_refines cs s g Hi) as H.
  destruct (replies (elems s) cs) as [rs| |].
  - destruct H as (s' & g' & -> & _). done.
  - by rewrite H.
  - done.
Qed.

Lemma set_run_inv cs s g rs s' g' :
  inv s → run cs s g = Done ((rs, s'), g') →
  inv s' ∧ elems s' = foldl stored_after (elems s) cs.
Proof.
  intros Hi Hr. pose proof (set_run_refines cs s g Hi) as H.
  destruct (replies (elems s) cs) as [rs0| |].
  - destruct H as (s0 & g0 & H & Hi0 & He0).
    rewrite Hr in H. by injection H as -> -> ->.
  - by rewrite Hr in H.
  - done.
Qed.

End SetClientFacts.

(** ** Programs over a TreapMap refine the abstract map *)

Module MapClientFacts.

Import TreapMap MapAbs MapClient MapFacts.

Lemma map_in_order_abs n : in_order n = Treap.keys (abs n).
Proof.
  induction n as [|k v p l IHl r IHr]; [done|].
  simpl. by rewrite TreapFacts.keys_node, IHl, IHr.
Qed.

Lemma map_bindings_abs n : bindings n = Treap.inorder (abs n).
Proof.
  induction n as [|k v p l IHl r IHr]; [done|].
  simpl. by rewrite IHl, IHr.
Qed.

Lemma map_count_nodes_abs n : count_nodes n = Treap.nodes (abs n).
Proof. induction n; simpl; congruence. Qed.

Lemma map_child_le_abs p n : child_le p n ↔ Treap.below p (abs n).
Proof. by destruct n. Qed.

Lemma map_max_heap_abs n : max_heap n ↔ Treap.heap (abs n).
Proof.
  induction n as [|k v p l IHl r IHr]; [done|].
  simpl. by rewrite !map_child_le_abs, IHl, IHr.
Qed.

Lemma map_insert_abs key value m g :
  insert key value m g
  = Done (mk (conc (Treap.ins key value (g O) (abs (root m)))),
          match Treap.lookup (abs (root m)) key with
          | Some _ => g
          | None => next g
          end).
Proof.
  destruct m as [n]. unfold insert, bind, ret. cbn [root].
  rewrite <- (map_conc_abs n) at 1. by rewrite map_insertRecursive_conc.
Qed.

Lemma map_remove_abs key m :
  remove key m = Done (mk (conc (Treap.rem key (abs (root m))))).
Proof.
  destruct m as [n]. unfold remove. cbn [root].
  rewrite <- (map_conc_abs n) at 2. rewrite map_removeRecursive_conc; [done|].
  unfold fuel_for. rewrite map_height_abs. lia.
Qed.

Lemma map_find_abs key d m :
  find key d m = Done (default d (Treap.lookup (abs (root m)) key), m).
Proof.
  destruct m as [n]. unfold find. cbn [root].
  rewrite <- (map_conc_abs n) at 1.
  destruct (Treap.lookup (abs n) key) as [v|] eqn:Hl.
  - destruct (map_findNode_Some _ _ _ Hl) as (k & p & l & r & ->). done.
  - by rewrite (map_findNode_None _ _ Hl).
Qed.

Lemma map_contains_abs key m :
  contains key m = bool_decide (is_Some (Treap.lookup (abs (root m)) key)).
Proof.
  destruct m as [n]. unfold contains. cbn [root].
  rewrite <- (map_conc_abs n) at 1.
  destruct (Treap.lookup (abs n) key) as [v|] eqn:Hl.
  - destruct (map_findNode_Some _ _ _ Hl) as (k & p & l & r & ->).
    by rewrite bool_decide_eq_true_2.
  - rewrite (map_findNode_None _ _ Hl).
    rewrite bool_decide_eq_false_2; [done|]. by intros [? ?].
Qed.

Lemma map_lookup_binds m key :
  inv m → Treap.lookup (abs (root m)) key = binds m !! key.
Proof. intros [Hb _]. by apply TreapFacts.lookup_tmap. Qed.

Lemma map_inv_empty : inv empty.
Proof. repeat split. Qed.

Lemma map_binds_empty : binds empty = ∅.
Proof. done. Qed.

Lemma map_perform_refines c m g :
  inv m →
  ∃ m' g', perform c m g = Done ((reply (binds m) c, m'), g')
           ∧ inv m' ∧ binds m' = bound_after (binds m) c.
Proof.
  intros Hi. pose proof Hi as [Hb Hh].
  destruct c as [key value|key| |key d|key];
    cbn [reply bound_after perform]; unfold bind, lift, ret.
  - rewrite map_insert_abs. eexists _, _. split; [done|].
    unfold inv, binds. cbn [root]. rewrite map_abs_conc.
    repeat split.
    + by apply TreapFacts.bst_ins.
    + by apply TreapFacts.heap_ins.
    + by apply TreapFacts.tmap_ins.
  - rewrite map_remove_abs. cbn [obind]. eexists _, _. split; [done|].
    unfold inv, binds. cbn [root]. rewrite map_abs_conc.
    repeat split.
    + by apply TreapFacts.bst_rem.
    + by apply TreapFacts.heap_rem.
    + by apply TreapFacts.tmap_rem.
  - exists empty, g. split; [done|]. split; [apply map_inv_empty|done].
  - rewrite map_find_abs, map_lookup_binds by done. cbn [obind fst snd].
    by exists m, g.
  - rewrite map_contains_abs, map_lookup_binds by done. by exists m, g.
Qed.

Lemma map_run_cons c cs m g :
  run (c :: cs) m g
  = match perform c m g with
    | Done (r, g1) =>
        match run cs (snd r) g1 with
        | Done (rs, g') => Done ((fst r :: fst rs, snd rs), g')
        | Undefined => Undefined
        | Timeout => Timeout
        end
    | Undefined => Undefined
    | Timeout => Timeout
    end.
Proof.
  cbn [run]. unfold bind, ret.
  destruct (perform c m g) as [[r g1]| |]; [|done|done].
  by destruct (run cs r.2 g1) as [[rs g']| |].
Qed.

Lemma map_run_refines cs m g :
  inv m →
  ∃ m' g', run cs m g = Done ((replies (binds m) cs, m'), g')
           ∧ inv m' ∧ binds m' = foldl bound_after (binds m) cs.
Proof.
  revert m g. induction cs as [|c cs IH]; intros m g Hi.
  - by exists m, g.
  - rewrite map_run_cons. cbn [replies foldl].
    destruct (map_perform_refines c m g Hi) as (m1 & g1 & -> & Hi1 & He1).
    cbn [snd fst].
    destruct (IH m1 g1 Hi1) as (m' & g' & -> & Hi' & He').
    rewrite He1 in He'. cbn [snd fst]. rewrite He1. by exists m', g'.
Qed.

Lemma map_run_inv cs m g rs m' g' :
  inv m → run cs m g = Done ((rs, m'), g') →
  inv m' ∧ binds m' = foldl bound_after (binds m) cs
  ∧ rs = replies (binds m) cs.
Proof.
  intros Hi Hr. destruct (map_run_refines cs m g Hi) as (m0 & g0 & H & Hi0 & He0).
  rewrite Hr in H. by injection H as -> -> ->.
Qed.

End MapClientFacts.

(** ** The properties of the public operations *)

(** A set reached from the empty set satisfies the invariant of the
    abstraction and holds the keys the calls leave stored. *)
Lemma set_reachable cs g rs s g' :
  SetClient.run cs TreapSet.empty g = Done ((rs, s), g') →
  SetAbs.inv s ∧ SetAbs.elems s = SetClient.stored cs.
Proof.
  intros Hr.
  destruct (SetClientFacts.set_run_inv _ _ _ _ _ _ SetClientFacts.set_inv_empty Hr)
    as [Hi He].
  split; [done|]. by rewrite He, SetClientFacts.set_elems_empty.
Qed.

Lemma map_reachable cs g rs m g' :
  MapClient.run cs TreapMap.empty g = Done ((rs, m), g') →
  MapAbs.inv m ∧ MapAbs.binds m = MapClient.bound cs.
Proof.
  intros Hr.
  destruct (MapClientFacts.map_run_inv _ _ _ _ _ _ MapClientFacts.map_inv_empty Hr)
    as (Hi & He & _).
  split; [done|]. by rewrite He.
Qed.

(** Programs do reach states: a program over a map always runs to its end,
    and a program over a set does whenever it makes no more than [INT_MAX]
    calls, so that the counter cannot overflow. *)
Lemma map_run_defined cs g :
  ∃ rs m g', MapClient.run cs TreapMap.empty g = Done ((rs, m), g').
Proof.
  destruct (MapClientFacts.map_run_refines cs TreapMap.empty g
              MapClientFacts.map_inv_empty) as (m & g' & H & _).
  eauto.
Qed.

Lemma replies_defined cs (X : gset Z) :
  Z.of_nat (base.size X) + Z.of_nat (length cs) <= INT_MAX →
  ∃ rs, SetClient.replies X cs = Done rs.
Proof.
  revert X. induction cs as [|c cs IH]; intros X Hn; [by eexists|].
  cbn [SetClient.replies]. cbn [length] in Hn.
  assert (SetClient.fits X c = true) as ->.
  { destruct c; cbn [SetClient.fits]; try done.
    apply orb_true_iff. right. lia. }
  assert (base.size (SetClient.stored_after X c) ≤ S (base.size X))%nat.
  { destruct c; cbn [SetClient.stored_after]; try lia.
    - rewrite size_union_alt, size_singleton.
      assert (base.size (X ∖ {[key]}) ≤ base.size X)%nat; [|lia].
      apply subseteq_size. set_solver.
    - assert (base.size (X ∖ {[key]}) ≤ base.size X)%nat; [|lia].
      apply subseteq_size. set_solver.
    - rewrite size_empty. lia. }
  destruct (IH (SetClient.stored_after X c)) as [rs ->]; [lia|].
  by eexists.
Qed.

Lemma set_run_defined cs g :
  Z.of_nat (length cs) <= INT_MAX →
  ∃ rs s g', SetClient.run cs TreapSet.empty g = Done ((rs, s), g').
Proof.
  intros Hn.
  pose proof (SetClientFacts.set_run_refines cs TreapSet.empty g
                SetClientFacts.set_inv_empty) as H.
  destruct (replies_defined cs (SetAbs.elems TreapSet.empty)) as [rs Hrs].
  { rewrite SetClientFacts.set_elems_empty, size_empty. lia. }
  rewrite Hrs in H. destruct H as (s & g' & H & _). eauto.
Qed.

(** C1. In every set and every map reached from the empty one by a sequence
    of public calls, the in-order traversal of the tree lists the keys in
    strictly increasing order; in particular no key occurs twice. *)
Theorem C1_in_order_strictly_increasing
  (cs : list SetClient.call) (g : RandState) rs s g'
  (cm : list MapClient.call) (gm : RandState) rm m gm' :
  SetClient.run cs TreapSet.empty g = Done ((rs, s), g') →
  MapClient.run cm TreapMap.empty gm = Done ((rm, m), gm') →
  (StronglySorted Z.lt (SetClient.in_order (TreapSet.root s))
   ∧ NoDup (SetClient.in_order (TreapSet.root s)))
  ∧ (StronglySorted Z.lt (MapClient.in_order (TreapMap.root m))
     ∧ NoDup (MapClient.in_order (TreapMap.root m))).
Proof.
  intros [[Hs _] _]%set_reachable [[Hm _] _]%map_reachable.
  rewrite SetClientFacts.set_in_order_abs, MapClientFacts.map_in_order_abs.
  apply TreapFacts.bst_sorted in Hs. apply TreapFacts.bst_sorted in Hm.
  repeat split; try done; by apply TreapFacts.sorted_NoDup.
Qed.

(** C2, as amended.  In every set and every map reached from the empty one,
    the priority of a node is greater than or equal to the priority of each
    child it has: two nodes that drew the same priority stay as they are. *)
Theorem C2_heap_order_up_to_ties
  (cs : list SetClient.call) (g : RandState) rs s g'
  (cm : list MapClient.call) (gm : RandState) rm m gm' :
  SetClient.run cs TreapSet.empty g = Done ((rs, s), g') →
  MapClient.run cm TreapMap.empty gm = Done ((rm, m), gm') →
  SetClient.max_heap (TreapSet.root s) ∧ MapClient.max_heap (TreapMap.root m).
Proof.
  intros [(_ & Hs & _) _]%set_reachable [[_ Hm] _]%map_reachable.
  by rewrite SetClientFacts.set_max_heap_abs, MapClientFacts.map_max_heap_abs.
Qed.

(** C3. In a reached set, [remove(k)] returns, [member(k)] is false
    afterwards, [size()] went down by one if [k] was a member and did not
    change otherwise, and the set is unchanged if [k] was not a member.  In
    a reached map, [remove(k)] returns, [contains(k)] is false afterwards,
    and the map is unchanged if it did not contain [k]. *)
Theorem C3_remove_correct
  (cs : list SetClient.call) (g : RandState) rs s g'
  (cm : list MapClient.call) (gm : RandState) rm m gm' (k : Z) :
  SetClient.run cs TreapSet.empty g = Done ((rs, s), g') →
  MapClient.run cm TreapMap.empty gm = Done ((rm, m), gm') →
  (∃ s', TreapSet.remove k s = Done s'
         ∧ TreapSet.member k s' = false
         ∧ TreapSet.size s'
           = TreapSet.size s - (if TreapSet.member k s then 1 else 0)
         ∧ (TreapSet.member k s = false → s' = s))
  ∧ (∃ m', TreapMap.remove k m = Done m'
           ∧ TreapMap.contains k m' = false
           ∧ (TreapMap.contains k m = false → m' = m)).
Proof.
  intros [Hs _]%set_reachable [Hm _]%map_reachable. split.
  - pose proof (SetClientFacts.set_perform_refines (SetClient.Remove k) s g Hs)
      as (s' & g1 & Hp & Hi' & He').
    cbn [SetClient.fits SetClient.perform SetClient.reply
         SetClient.stored_after] in Hp, He'.
    unfold bind, lift, ret in Hp.
    rewrite SetClientFacts.set_remove_abs in *.
    pose proof (SetClientFacts.set_member_elems s k Hs) as Hmem.
    pose proof (SetClientFacts.set_lookup_elems s k Hs) as Hl.
    assert (TreapSet.member k s' = false) as Hgone.
    { rewrite SetClientFacts.set_member_elems by done.
      apply bool_decide_eq_false_2. rewrite He'. set_solver. }
    destruct (Treap.lookup (SetAbs.abs (TreapSet.root s)) k).
    + rewrite Hmem, bool_decide_eq_true_2 by done.
      unfold decr in *.
      destruct (INT_MIN <? TreapSet.nodeCount s); [|done].
      cbn [obind] in *. injection Hp as <- _.
      eexists. repeat split; done.
    + cbn [obind] in Hp. injection Hp as <- _.
      rewrite Hmem, bool_decide_eq_false_2 by done.
      exists s. repeat split; [done|lia].
  - rewrite MapClientFacts.map_remove_abs. eexists. split; [done|].
    destruct Hm as [Hb Hh]. split.
    + rewrite MapClientFacts.map_contains_abs. cbn [TreapMap.root].
      rewrite MapFacts.map_abs_conc.
      apply bool_decide_eq_false_2.
      rewrite TreapFacts.lookup_tmap by (by apply TreapFacts.bst_rem).
      rewrite TreapFacts.tmap_rem by done.
      rewrite lookup_delete_eq. by intros [? ?].
    + rewrite MapClientFacts.map_contains_abs. intros Hc.
      apply bool_decide_eq_false_1 in Hc.
      rewrite TreapFacts.rem_absent, MapFacts.map_conc_abs.
      * by destruct m.
      * destruct (Treap.lookup _ k); [|done]. exfalso. apply Hc. eauto.
Qed.

(** C4. After any sequence of calls on a set that starts empty, [size()] is
    the number of keys stored (those inserted and not removed or cleared
    since, each counted once), which is the number of nodes of the tree;
    and the members are exactly the stored keys. *)
Theorem C4_size_counts_stored_keys
  (cs : list SetClient.call) (g : RandState) rs s g' :
  SetClient.run cs TreapSet.empty g = Done ((rs, s), g') →
  TreapSet.size s = Z.of_nat (base.size (SetClient.stored cs))
  ∧ TreapSet.size s = Z.of_nat (SetClient.count_nodes (TreapSet.root s))
  ∧ (∀ k, TreapSet.member k s = true ↔ k ∈ SetClient.stored cs).
Proof.
  intros [Hs He]%set_reachable. repeat split.
  - by rewrite SetClientFacts.set_size_elems, He.
  - rewrite SetClientFacts.set_count_nodes_abs. apply Hs.
  - rewrite SetClientFacts.set_member_elems, He by done.
    apply bool_decide_eq_true_1.
  - rewrite SetClientFacts.set_member_elems, He by done.
    apply bool_decide_eq_true_2.
Qed.

(** C5. [rotateRight] on a node [y] whose left child [x] is present returns
    [x], with [y] as the right child of [x] and the former right subtree of
    [x] as the left subtree of [y]; [rotateLeft] is the mirror image.  The
    call is defined whenever that child is present, and the in-order
    traversal of the result is that of the argument, whatever the keys: the
    key set and the order of the keys are kept.  The same holds for the
    rotations of the map, bindings included. *)
Theorem C5_rotations :
  (∀ ky py kx px T1 T2 T3,
     let y := TreapSet.mkNode ky py (TreapSet.mkNode kx px T1 T2) T3 in
     let x := TreapSet.mkNode kx px T1 (TreapSet.mkNode ky py T2 T3) in
     TreapSet.rotateRight y = Done x
     ∧ SetClient.in_order x = SetClient.in_order y)
  ∧ (∀ kx px ky py T1 T2 T3,
       let x := TreapSet.mkNode kx px T1 (TreapSet.mkNode ky py T2 T3) in
       let y := TreapSet.mkNode ky py (TreapSet.mkNode kx px T1 T2) T3 in
       TreapSet.rotateLeft x = Done y
       ∧ SetClient.in_order y = SetClient.in_order x)
  ∧ (∀ ky vy py kx vx px T1 T2 T3,
       let y := TreapMap.mkNode ky vy py (TreapMap.mkNode kx vx px T1 T2) T3 in
       let x := TreapMap.mkNode kx vx px T1 (TreapMap.mkNode ky vy py T2 T3) in
       TreapMap.rotateRight y = Done x
       ∧ MapClient.bindings x = MapClient.bindings y
       ∧ MapClient.in_order x = MapClient.in_order y)
  ∧ (∀ kx vx px ky vy py T1 T2 T3,
       let x := TreapMap.mkNode kx vx px T1 (TreapMap.mkNode ky vy py T2 T3) in
       let y := TreapMap.mkNode ky vy py (TreapMap.mkNode kx vx px T1 T2) T3 in
       TreapMap.rotateLeft x = Done y
       ∧ MapClient.bindings y = MapClient.bindings x
       ∧ MapClient.in_order y = MapClient.in_order x).
Proof.
  repeat split; simpl; by rewrite <- ?app_assoc.
Qed.

(** C6. In a reached map, [find(k, d)] returns, leaves the map as it is, and
    yields the value the calls so far have bound to [k], or [d] when they
    have left [k] unbound.  In terms of the tree: the value stored with [k]
    when [k] occurs in it, and [d] when it does not. *)
Theorem C6_find_returns_binding_or_default
  (cm : list MapClient.call) (gm : RandState) rm m gm' (k : Z) (d : TreapMap.Value) :
  MapClient.run cm TreapMap.empty gm = Done ((rm, m), gm') →
  TreapMap.find k d m = Done (default d (MapClient.bound cm !! k), m)
  ∧ (∀ v, (k, v) ∈ MapClient.bindings (TreapMap.root m) →
          TreapMap.find k d m = Done (v, m))
  ∧ (k ∉ MapClient.in_order (TreapMap.root m) →
     TreapMap.find k d m = Done (d, m)).
Proof.
  intros [Hm He]%map_reachable. pose proof Hm as [Hb Hh].
  rewrite MapClientFacts.map_find_abs, MapClientFacts.map_lookup_binds by done.
  repeat split.
  - by rewrite He.
  - intros v Hv. rewrite MapClientFacts.map_bindings_abs in Hv.
    apply elem_of_list_to_map in Hv; [|by apply TreapFacts.bst_NoDup].
    unfold MapAbs.binds, Treap.tmap. by rewrite Hv.
  - intros Hk. rewrite MapClientFacts.map_in_order_abs in Hk.
    unfold MapAbs.binds. by rewrite TreapFacts.tmap_None.
Qed.

Lemma same_shape_upd k v n :
  MapClient.same_shape n (MapAbs.conc (Treap.upd k v (MapAbs.abs n))).
Proof.
  induction n as [|k0 v0 p0 l IHl r IHr]; simpl; [done|].
  assert (∀ a, MapClient.same_shape a (MapAbs.conc (MapAbs.abs a))) as Hrefl.
  { intros a. induction a; simpl; auto. }
  destruct (k <? k0); [|destruct (k >? k0)]; simpl; auto.
Qed.

(** C7. In a reached map that contains [k], [insert(k, v2)] returns without
    drawing a priority; the tree keeps its shape (the same keys and
    priorities at the same places, hence the same number of nodes); [find]
    now yields [v2] for [k] and what it yielded before for every other
    key. *)
Theorem C7_insert_overwrites_in_place
  (cm : list MapClient.call) (gm : RandState) rm m gm'
  (k : Z) (v2 : TreapMap.Value) (g : RandState) :
  MapClient.run cm TreapMap.empty gm = Done ((rm, m), gm') →
  TreapMap.contains k m = true →
  ∃ m', TreapMap.insert k v2 m g = Done (m', g)
        ∧ MapClient.same_shape (TreapMap.root m) (TreapMap.root m')
        ∧ MapClient.count_nodes (TreapMap.root m')
          = MapClient.count_nodes (TreapMap.root m)
        ∧ MapClient.in_order (TreapMap.root m')
          = MapClient.in_order (TreapMap.root m)
        ∧ (∀ d, TreapMap.find k d m' = Done (v2, m'))
        ∧ (∀ k' d, k' ≠ k →
             ∃ v, TreapMap.find k' d m = Done (v, m)
                  ∧ TreapMap.find k' d m' = Done (v, m')).
Proof.
  intros [Hm He]%map_reachable Hc. pose proof Hm as [Hb Hh].
  rewrite MapClientFacts.map_contains_abs in Hc.
  apply bool_decide_eq_true_1 in Hc.
  rewrite MapClientFacts.map_insert_abs.
  destruct Hc as [w Hw]. rewrite Hw.
  eexists. split; [done|]. cbn [TreapMap.root].
  assert (MapAbs.inv
            (TreapMap.mk (MapAbs.conc (Treap.ins k v2 (g 0%nat)
                                         (MapAbs.abs (TreapMap.root m))))))
    as Hi'.
  { split; cbn [TreapMap.root]; rewrite MapFacts.map_abs_conc.
    - by apply TreapFacts.bst_ins.
    - by apply TreapFacts.heap_ins. }
  assert (MapAbs.binds
            (TreapMap.mk (MapAbs.conc (Treap.ins k v2 (g 0%nat)
                                         (MapAbs.abs (TreapMap.root m)))))
          = <[k:=v2]> (MapAbs.binds m)) as Hbinds.
  { unfold MapAbs.binds. cbn [TreapMap.root].
    rewrite MapFacts.map_abs_conc. by apply TreapFacts.tmap_ins. }
  repeat split.
  - rewrite TreapFacts.ins_present by eauto. apply same_shape_upd.
  - rewrite TreapFacts.ins_present by eauto.
    rewrite !MapClientFacts.map_count_nodes_abs, MapFacts.map_abs_conc.
    apply TreapFacts.nodes_upd.
  - rewrite !MapClientFacts.map_in_order_abs, MapFacts.map_abs_conc.
    rewrite TreapFacts.ins_present by eauto. apply TreapFacts.keys_upd.
  - intros d. rewrite MapClientFacts.map_find_abs.
    rewrite (MapClientFacts.map_lookup_binds _ _ Hi'), Hbinds.
    by rewrite lookup_insert_eq.
  - intros k' d Hne. eexists. split.
    + rewrite MapClientFacts.map_find_abs. done.
    + rewrite MapClientFacts.map_find_abs.
      rewrite (MapClientFacts.map_lookup_binds _ _ Hi'), Hbinds.
      rewrite lookup_insert_ne by done.
      by rewrite (MapClientFacts.map_lookup_binds _ _ Hm).
Qed.

(** C8. In a reached set or map, once [insert] has returned, the same call
    made again returns and changes nothing: not the tree, not the counter,
    not the generator.  And [insert(k)] on a set of which [k] is already a
    member changes nothing in the first place. *)
Theorem C8_insert_idempotent
  (cs : list SetClient.call) (g : RandState) rs s g'
  (cm : list MapClient.call) (gm : RandState) rm m gm'
  (k : Z) (v : TreapMap.Value) (h h1 : RandState) (s1 : TreapSet.t)
  (hm hm1 : RandState) (m1 : TreapMap.t) :
  SetClient.run cs TreapSet.empty g = Done ((rs, s), g') →
  MapClient.run cm TreapMap.empty gm = Done ((rm, m), gm') →
  TreapSet.insert k s h = Done (s1, h1) →
  TreapMap.insert k v m hm = Done (m1, hm1) →
  TreapSet.insert k s1 h1 = Done (s1, h1)
  ∧ TreapMap.insert k v m1 hm1 = Done (m1, hm1)
  ∧ (TreapSet.member k s = true → TreapSet.insert k s h = Done (s, h)).
Proof.
  intros [Hs _]%set_reachable [Hm _]%map_reachable Hins Hinm.
  repeat split.
  - pose proof (SetClientFacts.set_perform_refines (SetClient.Insert k) s h Hs)
      as Hp.
    cbn [SetClient.fits SetClient.perform SetClient.reply
         SetClient.stored_after] in Hp.
    unfold bind, ret in Hp. rewrite Hins in Hp.
    destruct (_ || _); [|done].
    destruct Hp as (s' & h' & [= <- <-] & Hi' & He').
    pose proof (SetClientFacts.set_lookup_elems s1 k Hi') as Hl.
    rewrite SetClientFacts.set_insert_abs.
    destruct (Treap.lookup _ k); [done|]. exfalso. apply Hl.
    rewrite He'. set_solver.
  - rewrite MapClientFacts.map_insert_abs in Hinm. injection Hinm as <- <-.
    destruct Hm as [Hb Hh].
    assert (Treap.lookup
              (Treap.ins k v (hm 0%nat) (MapAbs.abs (TreapMap.root m))) k
            = Some v) as Hl.
    { rewrite TreapFacts.lookup_tmap by (by apply TreapFacts.bst_ins).
      rewrite TreapFacts.tmap_ins by done. apply lookup_insert_eq. }
    rewrite MapClientFacts.map_insert_abs. cbn [TreapMap.root].
    rewrite MapFacts.map_abs_conc, Hl.
    rewrite TreapFacts.ins_present;
      [|by apply TreapFacts.heap_ins|by rewrite Hl].
    by rewrite TreapFacts.upd_same.
  - intros Hmem. rewrite SetClientFacts.set_member_elems in Hmem by done.
    apply bool_decide_eq_true_1 in Hmem.
    pose proof (SetClientFacts.set_lookup_elems s k Hs) as Hl.
    rewrite SetClientFacts.set_insert_abs.
    by destruct (Treap.lookup _ k).
Qed.

(** C9, as amended.  [removeRecursive] returns within a number of nested
    calls that is linear in the height of the tree: fuel above twice the
    height is never exhausted, for the map and for the set (where the call
    returns as soon as the counter can be decremented).  In the two-child
    case a rotation puts the node to remove one level further down, as a
    child of the subtree's new root, on top of strictly fewer nodes than
    before; that is what makes the recursion well-founded. *)
Theorem C9_remove_terminates
  (fuel : nat) (nm : TreapMap.Node) (ns : TreapSet.Node) (key c : Z) :
  (2 * TreapMap.height nm < fuel)%nat →
  (2 * TreapSet.height ns < fuel)%nat →
  (∃ n', TreapMap.removeRecursive fuel nm key = Done n')
  ∧ TreapSet.removeRecursive fuel ns key c ≠ Timeout
  ∧ (INT_MIN < c →
     ∃ n' c', TreapSet.removeRecursive fuel ns key c = Done (n', c'))
  ∧ (∀ k p kl pl a b kr pr d e,
       let l := TreapSet.mkNode kl pl a b in
       let r := TreapSet.mkNode kr pr d e in
       TreapSet.rotateRight (TreapSet.mkNode k p l r)
       = Done (TreapSet.mkNode kl pl a (TreapSet.mkNode k p b r))
       ∧ (SetClient.count_nodes (TreapSet.mkNode k p b r)
          < SetClient.count_nodes (TreapSet.mkNode k p l r))%nat
       ∧ TreapSet.rotateLeft (TreapSet.mkNode k p l r)
         = Done (TreapSet.mkNode kr pr (TreapSet.mkNode k p l d) e)
       ∧ (SetClient.count_nodes (TreapSet.mkNode k p l d)
          < SetClient.count_nodes (TreapSet.mkNode k p l r))%nat)
  ∧ (∀ k v p kl vl pl a b kr vr pr d e,
       let l := TreapMap.mkNode kl vl pl a b in
       let r := TreapMap.mkNode kr vr pr d e in
       TreapMap.rotateRight (TreapMap.mkNode k v p l r)
       = Done (TreapMap.mkNode kl vl pl a (TreapMap.mkNode k v p b r))
       ∧ (MapClient.count_nodes (TreapMap.mkNode k v p b r)
          < MapClient.count_nodes (TreapMap.mkNode k v p l r))%nat
       ∧ TreapMap.rotateLeft (TreapMap.mkNode k v p l r)
         = Done (TreapMap.mkNode kr vr pr (TreapMap.mkNode k v p l d) e)
       ∧ (MapClient.count_nodes (TreapMap.mkNode k v p l d)
          < MapClient.count_nodes (TreapMap.mkNode k v p l r))%nat).
Proof.
  intros Hfm Hfs.
  assert (TreapSet.removeRecursive fuel ns key c
          = match Treap.lookup (SetAbs.abs ns) key with
            | Some _ =>
                let? c' := decr c in
                Done (SetAbs.conc (Treap.rem key (SetAbs.abs ns)), c')
            | None => Done (SetAbs.conc (Treap.rem key (SetAbs.abs ns)), c)
            end) as Hset.
  { rewrite <- (SetFacts.set_conc_abs ns) at 1.
    apply SetFacts.set_removeRecursive_conc. by rewrite SetFacts.set_height_abs. }
  split; [|split; [|split; [|split]]].
  - rewrite <- (MapFacts.map_conc_abs nm).
    rewrite MapFacts.map_removeRecursive_conc by (by rewrite MapFacts.map_height_abs).
    eauto.
  - rewrite Hset. destruct (Treap.lookup _ key); [|done].
    unfold decr. by destruct (INT_MIN <? c).
  - intros Hc. rewrite Hset. destruct (Treap.lookup _ key); [|eauto].
    unfold decr. assert ((INT_MIN <? c) = true) as -> by lia.
    cbn [obind]. eauto.
  - intros. subst l r. simpl. repeat split; lia.
  - intros. subst l r. simpl. repeat split; lia.
Qed.

(** C10. The answers a program gets from a set, or from a map, do not depend
    on the priorities drawn: with any two generators the same sequence of
    calls yields the same answers of [member], [size], [find] and
    [contains], and is defined with the one exactly when it is with the
    other. *)
Theorem C10_answers_independent_of_priorities
  (cs : list SetClient.call) (cm : list MapClient.call)
  (g1 g2 : RandState) :
  SetClient.answers (SetClient.run cs TreapSet.empty g1)
  = SetClient.answers (SetClient.run cs TreapSet.empty g2)
  ∧ MapClient.answers (MapClient.run cm TreapMap.empty g1)
    = MapClient.answers (MapClient.run cm TreapMap.empty g2).
Proof.
  split.
  - by rewrite !SetClientFacts.set_answers_run by apply SetClientFacts.set_inv_empty.
  - destruct (MapClientFacts.map_run_refines cm TreapMap.empty g1
                MapClientFacts.map_inv_empty) as (m1 & h1 & -> & _).
    destruct (MapClientFacts.map_run_refines cm TreapMap.empty g2
                MapClientFacts.map_inv_empty) as (m2 & h2 & -> & _).
    done.
Qed.

(** ** The properties at the sample programs *)

Lemma C1_witness :
  (StronglySorted Z.lt (SetClient.in_order (TreapSet.root Samples.set_final))
   ∧ NoDup (SetClient.in_order (TreapSet.root Samples.set_final)))
  ∧ (StronglySorted Z.lt (MapClient.in_order (TreapMap.root Samples.map_final))
     ∧ NoDup (MapClient.in_order (TreapMap.root Samples.map_final))).
Proof.
  apply (C1_in_order_strictly_increasing
           Samples.set_calls Samples.gen
           Samples.set_answers Samples.set_final (Samples.later 4 Samples.gen)
           Samples.map_calls Samples.gen
           Samples.map_answers Samples.map_final (Samples.later 3 Samples.gen));
    vm_compute; reflexivity.
Defined.

(** C2, as stated, fails: after [insert(50)], [insert(70)], [insert(30)] with
    the priorities 7, 3, 7 drawn in that order, key 30 is the left child of
    key 50 and both have priority 7, so the parent's priority is not strictly
    greater. *)
Lemma C2_strict_heap_order_fails :
  SetClient.run Samples.tie_calls TreapSet.empty Samples.gen
  = Done (([SetClient.Void; SetClient.Void; SetClient.Void],
           Samples.tie_final),
          fun n => Samples.gen (3 + n)%nat)
  ∧ ¬ SetClient.strict_max_heap (TreapSet.root Samples.tie_final).
Proof.
  split; [reflexivity|]. simpl. lia.
Qed.

Lemma C2_witness :
  SetClient.max_heap (TreapSet.root Samples.set_final)
  ∧ MapClient.max_heap (TreapMap.root Samples.map_final).
Proof.
  apply (C2_heap_order_up_to_ties
           Samples.set_calls Samples.gen
           Samples.set_answers Samples.set_final (Samples.later 4 Samples.gen)
           Samples.map_calls Samples.gen
           Samples.map_answers Samples.map_final (Samples.later 3 Samples.gen));
    vm_compute; reflexivity.
Defined.

Lemma C3_witness :
  (∃ s', TreapSet.remove 50 Samples.set_final = Done s'
         ∧ TreapSet.member 50 s' = false
         ∧ TreapSet.size s'
           = TreapSet.size Samples.set_final
             - (if TreapSet.member 50 Samples.set_final then 1 else 0)
         ∧ (TreapSet.member 50 Samples.set_final = false →
            s' = Samples.set_final))
  ∧ (∃ m', TreapMap.remove 50 Samples.map_final = Done m'
           ∧ TreapMap.contains 50 m' = false
           ∧ (TreapMap.contains 50 Samples.map_final = false →
              m' = Samples.map_final)).
Proof.
  apply (C3_remove_correct
           Samples.set_calls Samples.gen
           Samples.set_answers Samples.set_final (Samples.later 4 Samples.gen)
           Samples.map_calls Samples.gen
           Samples.map_answers Samples.map_final (Samples.later 3 Samples.gen)
           50);
    vm_compute; reflexivity.
Defined.

Lemma C4_witness :
  TreapSet.size Samples.set_final
  = Z.of_nat (base.size (SetClient.stored Samples.set_calls))
  ∧ TreapSet.size Samples.set_final
    = Z.of_nat (SetClient.count_nodes (TreapSet.root Samples.set_final))
  ∧ (∀ k, TreapSet.member k Samples.set_final = true
          ↔ k ∈ SetClient.stored Samples.set_calls).
Proof.
  apply (C4_size_counts_stored_keys
           Samples.set_calls Samples.gen
           Samples.set_answers Samples.set_final (Samples.later 4 Samples.gen));
    vm_compute; reflexivity.
Defined.

Lemma C6_witness :
  TreapMap.find 30 "N/A" Samples.map_final
  = Done (default "N/A" (MapClient.bound Samples.map_calls !! 30),
          Samples.map_final)
  ∧ (∀ v, (30, v) ∈ MapClient.bindings (TreapMap.root Samples.map_final) →
          TreapMap.find 30 "N/A" Samples.map_final
          = Done (v, Samples.map_final))
  ∧ (30 ∉ MapClient.in_order (TreapMap.root Samples.map_final) →
     TreapMap.find 30 "N/A" Samples.map_final
     = Done ("N/A", Samples.map_final)).
Proof.
  apply (C6_find_returns_binding_or_default
           Samples.map_calls Samples.gen
           Samples.map_answers Samples.map_final (Samples.later 3 Samples.gen)
           30 "N/A");
    vm_compute; reflexivity.
Defined.

Lemma C7_witness :
  ∃ m', TreapMap.insert 50 "Ana" Samples.map_final Samples.gen
        = Done (m', Samples.gen)
        ∧ MapClient.same_shape (TreapMap.root Samples.map_final)
            (TreapMap.root m')
        ∧ MapClient.count_nodes (TreapMap.root m')
          = MapClient.count_nodes (TreapMap.root Samples.map_final)
        ∧ MapClient.in_order (TreapMap.root m')
          = MapClient.in_order (TreapMap.root Samples.map_final)
        ∧ (∀ d, TreapMap.find 50 d m' = Done ("Ana", m'))
        ∧ (∀ k' d, k' ≠ 50 →
             ∃ v, TreapMap.find k' d Samples.map_final
                  = Done (v, Samples.map_final)
                  ∧ TreapMap.find k' d m' = Done (v, m')).
Proof.
  apply (C7_insert_overwrites_in_place
           Samples.map_calls Samples.gen
           Samples.map_answers Samples.map_final (Samples.later 3 Samples.gen)
           50 "Ana" Samples.gen);
    vm_compute; reflexivity.
Defined.

Lemma C8_witness :
  TreapSet.insert 60 Samples.set_plus (next Samples.gen)
  = Done (Samples.set_plus, next Samples.gen)
  ∧ TreapMap.insert 60 "Dora" Samples.map_plus (next Samples.gen)
    = Done (Samples.map_plus, next Samples.gen)
  ∧ (TreapSet.member 60 Samples.set_final = true →
     TreapSet.insert 60 Samples.set_final Samples.gen
     = Done (Samples.set_final, Samples.gen)).
Proof.
  apply (C8_insert_idempotent
           Samples.set_calls Samples.gen
           Samples.set_answers Samples.set_final (Samples.later 4 Samples.gen)
           Samples.map_calls Samples.gen
           Samples.map_answers Samples.map_final (Samples.later 3 Samples.gen)
           60 "Dora" Samples.gen (next Samples.gen) Samples.set_plus
           Samples.gen (next Samples.gen) Samples.map_plus);
    vm_compute; reflexivity.
Defined.

(** C9, as stated, fails in its reason: removing key 50 from a node with
    two children rotates right, after which the node of key 50 is at depth 1
    of the subtree instead of depth 0, on a subtree of the same height 2;
    its depth has grown by one, and nothing about it went down by one but
    the number of nodes below it. *)
Lemma C9_rotation_lowers_the_node :
  TreapSet.rotateRight Samples.two_children
  = Done Samples.two_children_rotated
  ∧ SetClient.depth_of Samples.two_children 50 = Some 0%nat
  ∧ SetClient.depth_of Samples.two_children_rotated 50 = Some 1%nat
  ∧ TreapSet.height Samples.two_children = 2%nat
  ∧ TreapSet.height Samples.lowered = 2%nat
  ∧ TreapSet.removeRecursive 2 Samples.two_children 50 3
    = Done (TreapSet.mkNode 30 5 TreapSet.nullptr
              (TreapSet.mkNode 70 3 TreapSet.nullptr TreapSet.nullptr), 2).
Proof.
  repeat split.
Qed.

Lemma C9_witness :
  ∃ n', TreapMap.removeRecursive 5 Samples.two_children_map 50 = Done n'.
Proof.
  refine (proj1 (C9_remove_terminates
                   5 Samples.two_children_map Samples.two_children 50 3
                   _ _)); vm_compute; lia.
Defined.

(** ** Priorities along the operations *)

Module FurtherFacts.

Import Treap Further.

#[local] Arguments rotR : simpl never.
#[local] Arguments rotL : simpl never.

Section Generic.
Context {V : Type}.
Implicit Types (t l r : tree V) (k x : Z) (v : V) (p b : Z).

Lemma prios_rotR t : prios (rotR t) = prios t.
Proof.
  destruct t as [|[|a kx vx px c] ky vy py d]; simpl; try done.
  unfold rotR. simpl. by rewrite <- app_assoc.
Qed.

Lemma prios_rotL t : prios (rotL t) = prios t.
Proof.
  destruct t as [|a kx vx px [|c ky vy py d]]; simpl; try done.
  unfold rotL. simpl. by rewrite <- app_assoc.
Qed.

Lemma prios_ins_present k v p t :
  is_Some (lookup t k) → prios (ins k v p t) = prios t.
Proof.
  induction t as [|l IHl k0 v0 p0 r IHr]; simpl.
  - by intros [? ?].
  - destruct (k =? k0) eqn:Heq.
    + assert ((k <? k0) = false) as -> by lia.
      assert ((k >? k0) = false) as -> by lia. done.
    + destruct (k <? k0) eqn:Hlt.
      * intros Hs. destruct (above _ _); rewrite ?prios_rotR; simpl;
          by rewrite IHl.
      * assert ((k >? k0) = true) as -> by lia.
        intros Hs. destruct (above _ _); rewrite ?prios_rotL; simpl;
          by rewrite IHr.
Qed.

Lemma prios_ins_fresh k v p t :
  lookup t k = None → prios (ins k v p t) ≡ₚ p :: prios t.
Proof.
  induction t as [|l IHl k0 v0 p0 r IHr]; simpl; [done|].
  destruct (k =? k0) eqn:Heq; [done|].
  destruct (k <? k0) eqn:Hlt.
  - intros Hs. destruct (above _ _); rewrite ?prios_rotR; simpl;
      by rewrite IHl.
  - assert ((k >? k0) = true) as -> by lia.
    intros Hs. destruct (above _ _); rewrite ?prios_rotL; simpl;
      rewrite IHr by done; rewrite (Permutation_swap p p0);
      symmetry; apply Permutation_middle.
Qed.





Lemma heap_root_max b t : heap t → below b t → Forall (fun q => q <= b) (prios t).
Proof.
  revert b. induction t as [|l IHl k v p r IHr]; intros b; simpl; [done|].
  intros (Hbl & Hbr & Hl & Hr) Hb.
  apply Forall_app. split; [|constructor; [done|]].
  - eapply Forall_impl; [by apply IHl|]. intros q Hq. simpl in Hq. lia.
  - eapply Forall_impl; [by apply IHr|]. intros q Hq. simpl in Hq. lia.
Qed.




End Generic.

Lemma set_priorities_abs n : set_priorities n = prios (SetAbs.abs n).
Proof.
  induction n as [|k p l IHl r IHr]; [done|]. simpl. by rewrite IHl, IHr.
Qed.

Lemma map_priorities_abs n : map_priorities n = prios (MapAbs.abs n).
Proof.
  induction n as [|k v p l IHl r IHr]; [done|]. simpl. by rewrite IHl, IHr.
Qed.





Section Counting.
Context {V : Type}.
Implicit Types (t l r : tree V) (k x : Z) (v : V) (p b : Z).

Lemma length_prios t : length (prios t) = nodes t.
Proof.
  induction t as [|l IHl k v p r IHr]; simpl; [done|].
  rewrite length_app. simpl. lia.
Qed.

Lemma nodes_ins k v p t :
  nodes (ins k v p t)
  = match lookup t k with Some _ => nodes t | None => S (nodes t) end.
Proof.
  rewrite <- !length_prios.
  destruct (lookup t k) eqn:Hl.
  - by rewrite prios_ins_present by eauto.
  - by rewrite prios_ins_fresh.
Qed.

Lemma sorted_pairs (l : list (Z * V)) :
  StronglySorted Z.lt (l.*1) →
  StronglySorted (fun y z : Z * V => y.1 < z.1) l.
Proof.
  induction l as [|a l IH]; simpl; [constructor|].
  rewrite !StronglySorted_cons. intros [Ha Hl]. split; [|auto].
  apply Forall_forall. intros z Hz.
  apply (proj1 (Forall_forall _ _) Ha). by apply list_elem_of_fmap_2.
Qed.

Lemma inorder_eq_of_tmap t1 t2 :
  bst t1 → bst t2 → tmap t1 = tmap t2 → inorder t1 = inorder t2.
Proof.
  intros H1 H2 Hm.
  apply (StronglySorted_unique_strong (fun y z : Z * V => y.1 < z.1)).
  - intros x1 x2 _ _ Ha Hb. lia.
  - apply sorted_pairs. by apply TreapFacts.bst_sorted.
  - apply sorted_pairs. by apply TreapFacts.bst_sorted.
  - apply (list_to_map_inj (M := gmap Z)); [by apply TreapFacts.bst_NoDup..|done].
Qed.

Lemma lookup_sound t k v : lookup t k = Some v → (k, v) ∈ inorder t.
Proof.
  induction t as [|l IHl k0 v0 p0 r IHr]; simpl; [done|].
  destruct (k =? k0) eqn:Heq.
  - intros [= ->]. assert (k = k0) as -> by lia.
    apply elem_of_app. right. by left.
  - destruct (k <? k0); intros H; apply elem_of_app.
    + left. auto.
    + right. right. auto.
Qed.

Lemma nodes_merge l r : nodes (merge l r) = (nodes l + nodes r)%nat.
Proof.
  rewrite <- !TreapFacts.length_inorder, TreapFacts.inorder_merge.
  apply length_app.
Qed.

Lemma nodes_rem k t :
  nodes (rem k t)
  = match lookup t k with Some _ => Nat.pred (nodes t) | None => nodes t end.
Proof.
  induction t as [|l IHl k0 v0 p0 r IHr]; simpl; [done|].
  destruct (k =? k0) eqn:Heq.
  - assert ((k <? k0) = false) as -> by lia.
    assert ((k >? k0) = false) as -> by lia. apply nodes_merge.
  - destruct (k <? k0) eqn:Hlt.
    + simpl. rewrite IHl. destruct (lookup l k) eqn:Hl; [|done].
      destruct l; [done|]. simpl. lia.
    + assert ((k >? k0) = true) as -> by lia.
      simpl. rewrite IHr. destruct (lookup r k) eqn:Hl; [|done].
      destruct r; [done|]. simpl. lia.
Qed.

Lemma lookup_keys t k : is_Some (lookup t k) → k ∈ keys t.
Proof.
  intros [v Hv]. apply lookup_sound in Hv.
  unfold keys. apply list_elem_of_fmap. by exists (k, v).
Qed.

End Counting.





Lemma set_clear_perm n : set_clearRecursive n ≡ₚ SetClient.in_order n.
Proof.
  induction n as [|k p l IHl r IHr]; [done|]. simpl.
  rewrite IHl, IHr. apply Permutation_app_head.
  symmetry. apply Permutation_cons_append.
Qed.

Lemma map_clear_perm n : map_clearRecursive n ≡ₚ MapClient.in_order n.
Proof.
  induction n as [|k v p l IHl r IHr]; [done|]. simpl.
  rewrite IHl, IHr. apply Permutation_app_head.
  symmetry. apply Permutation_cons_append.
Qed.

End FurtherFacts.

(** ** Further properties of the operations *)

(** X1. In a reached set, once [insert(k)] has returned, [k] is a member, the
    membership of every other key is what it was, [size()] has grown by one
    exactly when [k] was not a member, and one priority has been drawn in
    that case and none otherwise. *)
Theorem X1_set_insert_then_member
  (cs : list SetClient.call) (g : RandState) rs s g'
  (k : Z) (h h1 : RandState) (s1 : TreapSet.t) :
  SetClient.run cs TreapSet.empty g = Done ((rs, s), g') →
  TreapSet.insert k s h = Done (s1, h1) →
  TreapSet.member k s1 = true
  ∧ (∀ k', k' ≠ k → TreapSet.member k' s1 = TreapSet.member k' s)
  ∧ TreapSet.size s1
    = TreapSet.size s + (if TreapSet.member k s then 0 else 1)
  ∧ h1 = (if TreapSet.member k s then h else next h).
Proof.
  intros [Hs _]%set_reachable Hins.
  pose proof (SetClientFacts.set_lookup_elems s k Hs) as Hl.
  pose proof (SetClientFacts.set_member_elems s k Hs) as Hm.
  rewrite SetClientFacts.set_insert_abs in Hins.
  destruct (Treap.lookup (SetAbs.abs (TreapSet.root s)) k).
  - injection Hins as <- <-. rewrite Hm, bool_decide_eq_true_2 by done.
    repeat split. lia.
  - rewrite Hm, bool_decide_eq_false_2 by done.
    unfold incr in Hins. destruct (TreapSet.nodeCount s <? INT_MAX); [|done].
    cbn [obind] in Hins. injection Hins as <- <-.
    destruct (SetClientFacts.set_insert_fresh_inv k (h 0%nat) s Hs Hl)
      as [Hi1 He1].
    repeat split.
    + rewrite SetClientFacts.set_member_elems by done.
      apply bool_decide_eq_true_2. rewrite He1. set_solver.
    + intros k' Hne. rewrite !SetClientFacts.set_member_elems by done.
      apply bool_decide_ext. rewrite He1. set_solver.
Qed.

(** X2. In a reached map, [insert(k, v)] always returns; afterwards [find]
    yields [v] for [k], [contains(k)] holds, every other key is bound and
    contained as before, the tree has one node more exactly when [k] was not
    contained, and one priority has been drawn in that case and none
    otherwise. *)
Theorem X2_map_insert_then_find
  (cm : list MapClient.call) (gm : RandState) rm m gm'
  (k : Z) (v d : TreapMap.Value) (h : RandState) :
  MapClient.run cm TreapMap.empty gm = Done ((rm, m), gm') →
  ∃ m1, TreapMap.insert k v m h
        = Done (m1, if TreapMap.contains k m then h else next h)
        ∧ TreapMap.find k d m1 = Done (v, m1)
        ∧ TreapMap.contains k m1 = true
        ∧ (∀ k' d', k' ≠ k →
             ∃ w, TreapMap.find k' d' m = Done (w, m)
                  ∧ TreapMap.find k' d' m1 = Done (w, m1))
        ∧ (∀ k', k' ≠ k → TreapMap.contains k' m1 = TreapMap.contains k' m)
        ∧ MapClient.count_nodes (TreapMap.root m1)
          = (MapClient.count_nodes (TreapMap.root m)
             + (if TreapMap.contains k m then 0 else 1))%nat.
Proof.
  intros [Hm _]%map_reachable. pose proof Hm as [Hb Hh].
  rewrite MapClientFacts.map_insert_abs.
  set (m1 := TreapMap.mk (MapAbs.conc (Treap.ins k v (h 0%nat)
                                         (MapAbs.abs (TreapMap.root m))))).
  assert (MapAbs.inv m1) as Hi1.
  { split; cbn [m1 TreapMap.root]; rewrite MapFacts.map_abs_conc.
    - by apply TreapFacts.bst_ins.
    - by apply TreapFacts.heap_ins. }
  assert (MapAbs.binds m1 = <[k:=v]> (MapAbs.binds m)) as Hbinds.
  { unfold MapAbs.binds. cbn [m1 TreapMap.root].
    rewrite MapFacts.map_abs_conc. by apply TreapFacts.tmap_ins. }
  exists m1. rewrite (MapClientFacts.map_contains_abs k m).
  repeat split.
  - destruct (Treap.lookup _ k) eqn:Hl.
    + rewrite bool_decide_eq_true_2 by eauto. done.
    + rewrite bool_decide_eq_false_2; [done|]. by intros [? ?].
  - rewrite MapClientFacts.map_find_abs.
    rewrite (MapClientFacts.map_lookup_binds _ _ Hi1), Hbinds.
    by rewrite lookup_insert_eq.
  - rewrite MapClientFacts.map_contains_abs.
    rewrite (MapClientFacts.map_lookup_binds _ _ Hi1), Hbinds.
    rewrite lookup_insert_eq. apply bool_decide_eq_true_2. eauto.
  - intros k' d' Hne. eexists. split.
    + by rewrite MapClientFacts.map_find_abs.
    + rewrite MapClientFacts.map_find_abs.
      rewrite (MapClientFacts.map_lookup_binds _ _ Hi1), Hbinds.
      rewrite lookup_insert_ne by done.
      by rewrite (MapClientFacts.map_lookup_binds _ _ Hm).
  - intros k' Hne. rewrite !MapClientFacts.map_contains_abs.
    rewrite (MapClientFacts.map_lookup_binds _ _ Hi1), Hbinds.
    rewrite lookup_insert_ne by done.
    by rewrite (MapClientFacts.map_lookup_binds _ _ Hm).
  - rewrite !MapClientFacts.map_count_nodes_abs. cbn [m1 TreapMap.root].
    rewrite MapFacts.map_abs_conc, FurtherFacts.nodes_ins.
    destruct (Treap.lookup _ k) eqn:Hl.
    + rewrite bool_decide_eq_true_2 by eauto. lia.
    + rewrite bool_decide_eq_false_2; [lia|]. by intros [? ?].
Qed.

(** X3. In a reached set or map, [remove(k)] returns and touches no other
    key: every other key is a member, or is bound to its value, exactly as
    before.  The map's tree has one node less exactly when it contained
    [k]. *)
Theorem X3_remove_keeps_other_keys
  (cs : list SetClient.call) (g : RandState) rs s g'
  (cm : list MapClient.call) (gm : RandState) rm m gm' (k : Z) :
  SetClient.run cs TreapSet.empty g = Done ((rs, s), g') →
  MapClient.run cm TreapMap.empty gm = Done ((rm, m), gm') →
  (∃ s1, TreapSet.remove k s = Done s1
         ∧ ∀ k', k' ≠ k → TreapSet.member k' s1 = TreapSet.member k' s)
  ∧ (∃ m1, TreapMap.remove k m = Done m1
           ∧ (∀ k' d, k' ≠ k →
                ∃ w, TreapMap.find k' d m = Done (w, m)
                     ∧ TreapMap.find k' d m1 = Done (w, m1))
           ∧ (∀ k', k' ≠ k →
                TreapMap.contains k' m1 = TreapMap.contains k' m)
           ∧ MapClient.count_nodes (TreapMap.root m1)
             = (MapClient.count_nodes (TreapMap.root m)
                - (if TreapMap.contains k m then 1 else 0))%nat).
Proof.
  intros [Hs _]%set_reachable [Hm _]%map_reachable. split.
  - pose proof (SetClientFacts.set_perform_refines (SetClient.Remove k) s g Hs)
      as (s1 & g1 & Hp & Hi1 & He1).
    cbn [SetClient.perform SetClient.stored_after] in Hp, He1.
    unfold bind, lift, ret in Hp.
    destruct (TreapSet.remove k s) as [s2| |]; try done.
    cbn [obind] in Hp. injection Hp as -> _.
    exists s1. split; [done|]. intros k' Hne.
    rewrite !SetClientFacts.set_member_elems by done.
    apply bool_decide_ext. rewrite He1. set_solver.
  - pose proof Hm as [Hb Hh]. rewrite MapClientFacts.map_remove_abs.
    set (m1 := TreapMap.mk (MapAbs.conc (Treap.rem k
                                           (MapAbs.abs (TreapMap.root m))))).
    assert (MapAbs.inv m1) as Hi1.
    { split; cbn [m1 TreapMap.root]; rewrite MapFacts.map_abs_conc.
      - by apply TreapFacts.bst_rem.
      - by apply TreapFacts.heap_rem. }
    assert (MapAbs.binds m1 = delete k (MapAbs.binds m)) as Hbinds.
    { unfold MapAbs.binds. cbn [m1 TreapMap.root].
      rewrite MapFacts.map_abs_conc. by apply TreapFacts.tmap_rem. }
    exists m1. repeat split.
    + intros k' d Hne. eexists. split.
      * by rewrite MapClientFacts.map_find_abs.
      * rewrite MapClientFacts.map_find_abs.
        rewrite (MapClientFacts.map_lookup_binds _ _ Hi1), Hbinds.
        rewrite lookup_delete_ne by done.
        by rewrite (MapClientFacts.map_lookup_binds _ _ Hm).
    + intros k' Hne. rewrite !MapClientFacts.map_contains_abs.
      rewrite (MapClientFacts.map_lookup_binds _ _ Hi1), Hbinds.
      rewrite lookup_delete_ne by done.
      by rewrite (MapClientFacts.map_lookup_binds _ _ Hm).
    + rewrite !MapClientFacts.map_count_nodes_abs.
      rewrite <- !TreapFacts.size_tmap by apply Hi1 || apply Hm.
      fold (MapAbs.binds m1). fold (MapAbs.binds m). rewrite Hbinds.
      rewrite map_size_delete, MapClientFacts.map_contains_abs.
      rewrite (MapClientFacts.map_lookup_binds _ _ Hm).
      destruct (MapAbs.binds m !! k) eqn:Hk.
      * rewrite bool_decide_eq_true_2 by eauto. by rewrite Nat.sub_1_r.
      * rewrite bool_decide_eq_false_2; [|by intros [? ?]].
        by rewrite Nat.sub_0_r.
Qed.

(** X4. Whatever the tree, ordered or not, the map's [insertRecursive]
    returns: it never rotates on a missing child.  The result holds the old
    keys and [key]; it draws one priority and has one node more when the
    search for [key] fails, and draws nothing and has as many nodes when the
    search finds [key]. *)
Theorem X4_map_insertRecursive_any_tree
  (node : TreapMap.Node) (key : TreapMap.Key) (value : TreapMap.Value)
  (g : RandState) :
  ∃ n', TreapMap.insertRecursive node key value g
        = Done (n', if TreapMap.contains key (TreapMap.mk node)
                    then g else next g)
        ∧ (∀ x, x ∈ MapClient.in_order n'
                ↔ x = key ∨ x ∈ MapClient.in_order node)
        ∧ MapClient.count_nodes n'
          = (MapClient.count_nodes node
             + (if TreapMap.contains key (TreapMap.mk node) then 0 else 1))%nat
        ∧ Further.map_priorities n'
          ≡ₚ (if TreapMap.contains key (TreapMap.mk node) then [] else [g O])
             ++ Further.map_priorities node.
Proof.
  assert (TreapMap.insertRecursive node key value g
          = Done (MapAbs.conc (Treap.ins key value (g O) (MapAbs.abs node)),
                  match Treap.lookup (MapAbs.abs node) key with
                  | Some _ => g
                  | None => next g
                  end)) as ->.
  { rewrite <- (MapFacts.map_conc_abs node) at 1.
    apply MapFacts.map_insertRecursive_conc. }
  rewrite MapClientFacts.map_contains_abs. cbn [TreapMap.root].
  eexists. split; [|split; [|split]].
  - destruct (Treap.lookup (MapAbs.abs node) key) eqn:Hl.
    + rewrite bool_decide_eq_true_2 by eauto. done.
    + rewrite bool_decide_eq_false_2; [done|]. by intros [? ?].
  - intros x. rewrite !MapClientFacts.map_in_order_abs, MapFacts.map_abs_conc.
    apply TreapFacts.keys_ins.
  - rewrite !MapClientFacts.map_count_nodes_abs, MapFacts.map_abs_conc.
    rewrite FurtherFacts.nodes_ins.
    destruct (Treap.lookup (MapAbs.abs node) key) eqn:Hl.
    + rewrite bool_decide_eq_true_2 by eauto. lia.
    + rewrite bool_decide_eq_false_2; [lia|]. by intros [? ?].
  - rewrite !FurtherFacts.map_priorities_abs, MapFacts.map_abs_conc.
    destruct (Treap.lookup (MapAbs.abs node) key) eqn:Hl.
    + rewrite bool_decide_eq_true_2 by eauto.
      by rewrite FurtherFacts.prios_ins_present by eauto.
    + rewrite bool_decide_eq_false_2 by (by intros [? ?]).
      by rewrite FurtherFacts.prios_ins_fresh.
Qed.

(** X5. Whatever the tree and the counter, the set's [insertRecursive] does
    one of three things.  When the search finds [key], it returns with the
    counter and the generator untouched.  When the search fails and the
    counter is below [INT_MAX], it returns with the counter incremented and
    one priority drawn.  When the search fails with the counter at
    [INT_MAX], the increment overflows.  A returned tree holds the old keys
    and [key]. *)
Theorem X5_set_insertRecursive_any_tree
  (node : TreapSet.Node) (key c : Z) (g : RandState) :
  ∃ n', TreapSet.insertRecursive node key (c, g)
        = (if TreapSet.memberRecursive node key then Done (n', (c, g))
           else if c <? INT_MAX then Done (n', (c + 1, next g))
                else Undefined)
        ∧ (∀ x, x ∈ SetClient.in_order n'
                ↔ x = key ∨ x ∈ SetClient.in_order node)
        ∧ SetClient.count_nodes n'
          = (SetClient.count_nodes node
             + (if TreapSet.memberRecursive node key then 0 else 1))%nat.
Proof.
  assert (TreapSet.insertRecursive node key (c, g)
          = match Treap.lookup (SetAbs.abs node) key with
            | Some _ =>
                Done (SetAbs.conc (Treap.ins key tt (g O) (SetAbs.abs node)),
                      (c, g))
            | None =>
                let? c' := incr c in
                Done (SetAbs.conc (Treap.ins key tt (g O) (SetAbs.abs node)),
                      (c', next g))
            end) as ->.
  { rewrite <- (SetFacts.set_conc_abs node) at 1.
    apply SetFacts.set_insertRecursive_conc. }
  assert (TreapSet.memberRecursive node key
          = match Treap.lookup (SetAbs.abs node) key with
            | Some _ => true
            | None => false
            end) as ->.
  { rewrite <- (SetFacts.set_conc_abs node) at 1.
    apply SetFacts.set_memberRecursive_conc. }
  eexists. split; [|split].
  - destruct (Treap.lookup (SetAbs.abs node) key); [done|].
    unfold incr. by destruct (c <? INT_MAX).
  - intros x. rewrite !SetClientFacts.set_in_order_abs, SetFacts.set_abs_conc.
    apply TreapFacts.keys_ins.
  - rewrite !SetClientFacts.set_count_nodes_abs, SetFacts.set_abs_conc.
    rewrite FurtherFacts.nodes_ins.
    destruct (Treap.lookup (SetAbs.abs node) key); lia.
Qed.

(** X6. Whatever the tree, with fuel above twice its height: the set's
    [removeRecursive] returns the very same tree and counter when the search
    for [key] fails, and otherwise decrements the counter once (overflowing
    only at [INT_MIN]) and returns a tree with one node less, all of whose
    keys were in the tree; the map's [removeRecursive] returns the very same
    tree when the search fails and a tree with one node less otherwise. *)
Theorem X6_removeRecursive_any_tree
  (fuel : nat) (ns : TreapSet.Node) (nm : TreapMap.Node) (key c : Z) :
  (2 * TreapSet.height ns < fuel)%nat →
  (2 * TreapMap.height nm < fuel)%nat →
  (∃ n', TreapSet.removeRecursive fuel ns key c
         = (if TreapSet.memberRecursive ns key
            then if INT_MIN <? c then Done (n', c - 1) else Undefined
            else Done (ns, c))
         ∧ (∀ x, x ∈ SetClient.in_order n' → x ∈ SetClient.in_order ns)
         ∧ SetClient.count_nodes n'
           = (SetClient.count_nodes ns
              - (if TreapSet.memberRecursive ns key then 1 else 0))%nat)
  ∧ (∃ n', TreapMap.removeRecursive fuel nm key = Done n'
           ∧ (TreapMap.contains key (TreapMap.mk nm) = false → n' = nm)
           ∧ (∀ x, x ∈ MapClient.in_order n' → x ∈ MapClient.in_order nm)
           ∧ MapClient.count_nodes n'
             = (MapClient.count_nodes nm
                - (if TreapMap.contains key (TreapMap.mk nm)
                   then 1 else 0))%nat).
Proof.
  intros Hfs Hfm. split.
  - exists (SetAbs.conc (Treap.rem key (SetAbs.abs ns))).
    assert (TreapSet.removeRecursive fuel ns key c
            = match Treap.lookup (SetAbs.abs ns) key with
              | Some _ =>
                  let? c' := decr c in
                  Done (SetAbs.conc (Treap.rem key (SetAbs.abs ns)), c')
              | None => Done (SetAbs.conc (Treap.rem key (SetAbs.abs ns)), c)
              end) as ->.
    { rewrite <- (SetFacts.set_conc_abs ns) at 1.
      apply SetFacts.set_removeRecursive_conc.
      by rewrite SetFacts.set_height_abs. }
    assert (TreapSet.memberRecursive ns key
            = match Treap.lookup (SetAbs.abs ns) key with
              | Some _ => true
              | None => false
              end) as ->.
    { rewrite <- (SetFacts.set_conc_abs ns) at 1.
      apply SetFacts.set_memberRecursive_conc. }
    split; [|split].
    + destruct (Treap.lookup (SetAbs.abs ns) key) eqn:Hl.
      * unfold decr. by destruct (INT_MIN <? c).
      * by rewrite TreapFacts.rem_absent, SetFacts.set_conc_abs.
    + intros x. rewrite !SetClientFacts.set_in_order_abs, SetFacts.set_abs_conc.
      apply TreapFacts.keys_rem.
    + rewrite !SetClientFacts.set_count_nodes_abs, SetFacts.set_abs_conc.
      rewrite FurtherFacts.nodes_rem.
      destruct (Treap.lookup (SetAbs.abs ns) key); lia.
  - exists (MapAbs.conc (Treap.rem key (MapAbs.abs nm))).
    assert (TreapMap.removeRecursive fuel nm key
            = Done (MapAbs.conc (Treap.rem key (MapAbs.abs nm)))) as ->.
    { rewrite <- (MapFacts.map_conc_abs nm) at 1.
      apply MapFacts.map_removeRecursive_conc.
      by rewrite MapFacts.map_height_abs. }
    rewrite MapClientFacts.map_contains_abs. cbn [TreapMap.root].
    split; [done|]. split; [|split].
    + intros Hc. apply bool_decide_eq_false_1 in Hc.
      rewrite TreapFacts.rem_absent; [apply MapFacts.map_conc_abs|].
      destruct (Treap.lookup _ key); [|done]. exfalso. apply Hc. eauto.
    + intros x. rewrite !MapClientFacts.map_in_order_abs, MapFacts.map_abs_conc.
      apply TreapFacts.keys_rem.
    + rewrite !MapClientFacts.map_count_nodes_abs, MapFacts.map_abs_conc.
      rewrite FurtherFacts.nodes_rem.
      destruct (Treap.lookup (MapAbs.abs nm) key) eqn:Hl.
      * rewrite bool_decide_eq_true_2 by eauto. lia.
      * rewrite bool_decide_eq_false_2; [lia|]. by intros [? ?].
Qed.


(** X8. In every reached set and map the root carries a greatest priority:
    no node of the tree has a priority above the root's. *)
Theorem X8_root_has_greatest_priority
  (cs : list SetClient.call) (g : RandState) rs s g'
  (cm : list MapClient.call) (gm : RandState) rm m gm' :
  SetClient.run cs TreapSet.empty g = Done ((rs, s), g') →
  MapClient.run cm TreapMap.empty gm = Done ((rm, m), gm') →
  match TreapSet.root s with
  | TreapSet.nullptr => True
  | TreapSet.mkNode _ p _ _ =>
      Forall (fun q => q <= p) (Further.set_priorities (TreapSet.root s))
  end
  ∧ match TreapMap.root m with
    | TreapMap.nullptr => True
    | TreapMap.mkNode _ _ p _ _ =>
        Forall (fun q => q <= p) (Further.map_priorities (TreapMap.root m))
    end.
Proof.
  intros [(_ & Hhs & _) _]%set_reachable [[_ Hhm] _]%map_reachable.
  split.
  - destruct (TreapSet.root s) as [|k p l r] eqn:Hr; [done|].
    rewrite FurtherFacts.set_priorities_abs.
    apply FurtherFacts.heap_root_max; [done|]. simpl. lia.
  - destruct (TreapMap.root m) as [|k v p l r] eqn:Hr; [done|].
    rewrite FurtherFacts.map_priorities_abs.
    apply FurtherFacts.heap_root_max; [done|]. simpl. lia.
Qed.

(** X9. The two rotations undo each other: [rotateLeft] applied to the
    result of [rotateRight] gives back the node rotated, and the other way
    round, for the set and for the map; and a rotation keeps the priorities
    in their in-order sequence. *)
Theorem X9_rotations_are_inverse :
  (∀ ky py kx px T1 T2 T3,
     let y := TreapSet.mkNode ky py (TreapSet.mkNode kx px T1 T2) T3 in
     (let? x := TreapSet.rotateRight y in TreapSet.rotateLeft x) = Done y
     ∧ (let? x := TreapSet.rotateRight y in
        Done (Further.set_priorities x))
       = Done (Further.set_priorities y))
  ∧ (∀ kx px ky py T1 T2 T3,
       let x := TreapSet.mkNode kx px T1 (TreapSet.mkNode ky py T2 T3) in
       (let? y := TreapSet.rotateLeft x in TreapSet.rotateRight y) = Done x
       ∧ (let? y := TreapSet.rotateLeft x in
          Done (Further.set_priorities y))
         = Done (Further.set_priorities x))
  ∧ (∀ ky vy py kx vx px T1 T2 T3,
       let y := TreapMap.mkNode ky vy py (TreapMap.mkNode kx vx px T1 T2) T3 in
       (let? x := TreapMap.rotateRight y in TreapMap.rotateLeft x) = Done y
       ∧ (let? x := TreapMap.rotateRight y in
          Done (Further.map_priorities x))
         = Done (Further.map_priorities y))
  ∧ (∀ kx vx px ky vy py T1 T2 T3,
       let x := TreapMap.mkNode kx vx px T1 (TreapMap.mkNode ky vy py T2 T3) in
       (let? y := TreapMap.rotateLeft x in TreapMap.rotateRight y) = Done x
       ∧ (let? y := TreapMap.rotateLeft x in
          Done (Further.map_priorities y))
         = Done (Further.map_priorities x)).
Proof.
  repeat split; simpl; by rewrite <- ?app_assoc.
Qed.

(** X10. In a reached set of which [k] is not a member, [insert(k)] followed
    by [remove(k)] brings back the same keys in order and the same [size()];
    in a reached map that does not contain [k], [insert(k, v)] followed by
    [remove(k)] brings back the same bindings in order. *)
Theorem X10_insert_then_remove
  (cs : list SetClient.call) (g : RandState) rs s g'
  (cm : list MapClient.call) (gm : RandState) rm m gm'
  (k : Z) (v : TreapMap.Value) (h h1 hm : RandState) (s1 : TreapSet.t) :
  SetClient.run cs TreapSet.empty g = Done ((rs, s), g') →
  MapClient.run cm TreapMap.empty gm = Done ((rm, m), gm') →
  TreapSet.member k s = false →
  TreapMap.contains k m = false →
  TreapSet.insert k s h = Done (s1, h1) →
  (∃ s2, TreapSet.remove k s1 = Done s2
         ∧ SetClient.in_order (TreapSet.root s2)
           = SetClient.in_order (TreapSet.root s)
         ∧ TreapSet.size s2 = TreapSet.size s)
  ∧ (∃ m1 m2, TreapMap.insert k v m hm = Done (m1, next hm)
              ∧ TreapMap.remove k m1 = Done m2
              ∧ MapClient.bindings (TreapMap.root m2)
                = MapClient.bindings (TreapMap.root m)).
Proof.
  intros [Hs _]%set_reachable [Hm _]%map_reachable Hmem Hcon Hins. split.
  - pose proof Hs as (Hb & Hh & Hc).
    rewrite SetClientFacts.set_member_elems in Hmem by done.
    apply bool_decide_eq_false_1 in Hmem.
    pose proof (SetClientFacts.set_lookup_elems s k Hs) as Hl.
    rewrite SetClientFacts.set_insert_abs in Hins.
    destruct (Treap.lookup (SetAbs.abs (TreapSet.root s)) k) eqn:Hlk; [done|].
    unfold incr in Hins. destruct (TreapSet.nodeCount s <? INT_MAX); [|done].
    cbn [obind] in Hins. injection Hins as <- <-.
    destruct (SetClientFacts.set_insert_fresh_inv k (h 0%nat) s Hs Hmem)
      as [Hi1 He1].
    rewrite SetClientFacts.set_remove_abs. cbn [TreapSet.root TreapSet.nodeCount].
    rewrite SetFacts.set_abs_conc.
    pose proof (SetClientFacts.set_lookup_elems _ k Hi1) as Hl1.
    cbn [TreapSet.root] in Hl1. rewrite SetFacts.set_abs_conc in Hl1.
    destruct (Treap.lookup (Treap.ins k () (h 0%nat) _) k).
    2:{ exfalso. apply Hl1. rewrite He1. set_solver. }
    unfold decr. assert ((INT_MIN <? TreapSet.nodeCount s + 1) = true) as ->.
    { unfold INT_MIN. lia. }
    cbn [obind]. eexists. split; [done|]. cbn [TreapSet.root].
    split; [|unfold TreapSet.size; simpl; lia].
    rewrite !SetClientFacts.set_in_order_abs, SetFacts.set_abs_conc.
    unfold Treap.keys. f_equal.
    apply FurtherFacts.inorder_eq_of_tmap; [|done|].
    + by apply TreapFacts.bst_rem, TreapFacts.bst_ins.
    + rewrite TreapFacts.tmap_rem by (by apply TreapFacts.bst_ins).
      rewrite TreapFacts.tmap_ins by done.
      rewrite delete_insert_eq. apply delete_id.
      by rewrite <- TreapFacts.lookup_tmap.
  - pose proof Hm as [Hb Hh].
    rewrite MapClientFacts.map_contains_abs in Hcon.
    apply bool_decide_eq_false_1 in Hcon.
    assert (Treap.lookup (MapAbs.abs (TreapMap.root m)) k = None) as Hlk.
    { destruct (Treap.lookup _ k); [|done]. exfalso. apply Hcon. eauto. }
    rewrite MapClientFacts.map_insert_abs, Hlk.
    eexists. eexists. split; [done|].
    rewrite MapClientFacts.map_remove_abs. split; [done|].
    cbn [TreapMap.root].
    rewrite !MapClientFacts.map_bindings_abs, !MapFacts.map_abs_conc.
    apply FurtherFacts.inorder_eq_of_tmap; [|done|].
    + by apply TreapFacts.bst_rem, TreapFacts.bst_ins.
    + rewrite TreapFacts.tmap_rem by (by apply TreapFacts.bst_ins).
      rewrite TreapFacts.tmap_ins by done.
      rewrite delete_insert_eq. apply delete_id.
      by rewrite <- TreapFacts.lookup_tmap.
Qed.

(** X11. [clearRecursive] on the tree of a reached set deletes each node
    exactly once: the keys of the deleted nodes are the keys of the tree,
    none twice, they are the members of the set and as many as [size()]
    says; after [clear()] the size is 0 and nothing is a member.  Likewise
    for a reached map and what it contains. *)
Theorem X11_clear_deletes_every_node_once
  (cs : list SetClient.call) (g : RandState) rs s g'
  (cm : list MapClient.call) (gm : RandState) rm m gm' :
  SetClient.run cs TreapSet.empty g = Done ((rs, s), g') →
  MapClient.run cm TreapMap.empty gm = Done ((rm, m), gm') →
  (Further.set_clearRecursive (TreapSet.root s)
     ≡ₚ SetClient.in_order (TreapSet.root s)
   ∧ NoDup (Further.set_clearRecursive (TreapSet.root s))
   ∧ Z.of_nat (length (Further.set_clearRecursive (TreapSet.root s)))
     = TreapSet.size s
   ∧ (∀ k, k ∈ Further.set_clearRecursive (TreapSet.root s)
           ↔ TreapSet.member k s = true)
   ∧ TreapSet.size (TreapSet.clear s) = 0
   ∧ (∀ k, TreapSet.member k (TreapSet.clear s) = false))
  ∧ (Further.map_clearRecursive (TreapMap.root m)
       ≡ₚ MapClient.in_order (TreapMap.root m)
     ∧ NoDup (Further.map_clearRecursive (TreapMap.root m))
     ∧ (∀ k, k ∈ Further.map_clearRecursive (TreapMap.root m)
             ↔ TreapMap.contains k m = true)
     ∧ (∀ k, TreapMap.contains k (TreapMap.clear m) = false)).
Proof.
  intros [Hs _]%set_reachable [Hm _]%map_reachable. split.
  - pose proof Hs as (Hb & Hh & Hc).
    pose proof (FurtherFacts.set_clear_perm (TreapSet.root s)) as Hp.
    repeat split; try done.
    + rewrite Hp, SetClientFacts.set_in_order_abs.
      by apply TreapFacts.bst_NoDup.
    + rewrite Hp, SetClientFacts.set_in_order_abs, TreapFacts.length_keys.
      unfold TreapSet.size. by rewrite Hc.
    + rewrite Hp, SetClientFacts.set_in_order_abs.
      rewrite SetClientFacts.set_member_elems by done.
      intros Hk. apply bool_decide_eq_true_2. unfold SetAbs.elems.
      rewrite TreapFacts.dom_tmap. by apply elem_of_list_to_set.
    + rewrite Hp, SetClientFacts.set_in_order_abs.
      rewrite SetClientFacts.set_member_elems by done.
      intros Hk%bool_decide_eq_true_1. unfold SetAbs.elems in Hk.
      rewrite TreapFacts.dom_tmap in Hk. by apply elem_of_list_to_set in Hk.
  - pose proof Hm as (Hb & Hh).
    pose proof (FurtherFacts.map_clear_perm (TreapMap.root m)) as Hp.
    repeat split; try done.
    + rewrite Hp, MapClientFacts.map_in_order_abs.
      by apply TreapFacts.bst_NoDup.
    + rewrite Hp, MapClientFacts.map_in_order_abs.
      rewrite MapClientFacts.map_contains_abs.
      rewrite TreapFacts.lookup_tmap by done.
      intros Hk. apply bool_decide_eq_true_2.
      destruct (Treap.tmap (MapAbs.abs (TreapMap.root m)) !! k) eqn:Hl;
        [eauto|]. exfalso.
      assert (k ∈ dom (Treap.tmap (MapAbs.abs (TreapMap.root m)))) as Hd.
      { rewrite TreapFacts.dom_tmap. by apply elem_of_list_to_set. }
      apply elem_of_dom in Hd. rewrite Hl in Hd. by destruct Hd.
    + rewrite Hp, MapClientFacts.map_in_order_abs.
      rewrite MapClientFacts.map_contains_abs.
      intros Hk%bool_decide_eq_true_1. by apply FurtherFacts.lookup_keys.
Qed.

(** X12. In a reached set [size()] is never negative, it is 0 exactly when
    the tree is empty, and exactly when no key is a member. *)
Theorem X12_size_zero_iff_empty
  (cs : list SetClient.call) (g : RandState) rs s g' :
  SetClient.run cs TreapSet.empty g = Done ((rs, s), g') →
  0 <= TreapSet.size s
  ∧ (TreapSet.size s = 0 ↔ TreapSet.root s = TreapSet.nullptr)
  ∧ (TreapSet.size s = 0 ↔ ∀ k, TreapSet.member k s = false).
Proof.
  intros [Hs _]%set_reachable. pose proof Hs as (Hb & Hh & Hc).
  unfold TreapSet.size. repeat split.
  - lia.
  - intros Hz. destruct (TreapSet.root s); [done|]. simpl in Hc. lia.
  - intros Hr. rewrite Hr in Hc. by rewrite Hc.
  - intros Hz k. unfold TreapSet.member.
    destruct (TreapSet.root s); [done|]. simpl in Hc. lia.
  - intros Hall. destruct (TreapSet.root s) as [|k p l r] eqn:Hr.
    + by rewrite Hc.
    + specialize (Hall k). unfold TreapSet.member in Hall.
      rewrite Hr in Hall. simpl in Hall.
      by rewrite Z.eqb_refl in Hall.
Qed.

Lemma map_findNode_sound n key k v p l r :
  TreapMap.findNode n key = TreapMap.mkNode k v p l r →
  k = key ∧ (key, v) ∈ MapClient.bindings n.
Proof.
  induction n as [|k0 v0 p0 l0 IHl r0 IHr]; simpl; [done|].
  destruct (key =? k0) eqn:Heq.
  - intros [= -> -> -> -> ->]. split; [lia|].
    assert (key = k) as -> by lia. apply elem_of_app. right. by left.
  - destruct (key <? k0); intros [-> Hin]%IHl || intros [-> Hin]%IHr;
      (split; [done|]); apply elem_of_app; [by left|by right; right].
Qed.

(** X13. Whatever the tree, ordered or not, a search that succeeds is right:
    when [memberRecursive] answers true the key is in the tree, and the node
    [findNode] returns has the key searched for and is a node of the tree,
    so that [find] never yields the value of another key. *)
Theorem X13_search_is_sound_on_any_tree
  (ns : TreapSet.Node) (nm : TreapMap.Node) (key : Z)
  (k : TreapMap.Key) (v : TreapMap.Value) (p : Z) (l r : TreapMap.Node) :
  TreapSet.memberRecursive ns key = true →
  TreapMap.findNode nm key = TreapMap.mkNode k v p l r →
  key ∈ SetClient.in_order ns
  ∧ k = key
  ∧ (key, v) ∈ MapClient.bindings nm
  ∧ ∀ d, TreapMap.find key d (TreapMap.mk nm) = Done (v, TreapMap.mk nm).
Proof.
  intros Hmem Hfind. split; [|split; [|split]].
  - rewrite <- (SetFacts.set_conc_abs ns) in Hmem.
    rewrite SetFacts.set_memberRecursive_conc in Hmem.
    rewrite SetClientFacts.set_in_order_abs.
    apply FurtherFacts.lookup_keys.
    destruct (Treap.lookup _ key); [eauto|done].
  - by apply map_findNode_sound in Hfind as [-> _].
  - by apply map_findNode_sound in Hfind as [_ H].
  - intros d. unfold TreapMap.find. cbn [TreapMap.root]. by rewrite Hfind.
Qed.

(** X14. On a reached set or map the search is also complete: [member(k)],
    or [contains(k)], answers true exactly when [k] is a key of the tree. *)
Theorem X14_search_is_complete_on_reached_trees
  (cs : list SetClient.call) (g : RandState) rs s g'
  (cm : list MapClient.call) (gm : RandState) rm m gm' (k : Z) :
  SetClient.run cs TreapSet.empty g = Done ((rs, s), g') →
  MapClient.run cm TreapMap.empty gm = Done ((rm, m), gm') →
  (TreapSet.member k s = true ↔ k ∈ SetClient.in_order (TreapSet.root s))
  ∧ (TreapMap.contains k m = true
     ↔ k ∈ MapClient.in_order (TreapMap.root m)).
Proof.
  intros [Hs _]%set_reachable [Hm _]%map_reachable.
  rewrite SetClientFacts.set_member_elems by done.
  rewrite MapClientFacts.map_contains_abs.
  rewrite SetClientFacts.set_in_order_abs, MapClientFacts.map_in_order_abs.
  rewrite (MapClientFacts.map_lookup_binds _ _ Hm).
  unfold SetAbs.elems, MapAbs.binds. split; split.
  - intros Hk%bool_decide_eq_true_1. rewrite TreapFacts.dom_tmap in Hk.
    by apply elem_of_list_to_set in Hk.
  - intros Hk. apply bool_decide_eq_true_2. rewrite TreapFacts.dom_tmap.
    by apply elem_of_list_to_set.
  - intros Hk%bool_decide_eq_true_1. by apply TreapFacts.tmap_is_Some.
  - intros Hk. apply bool_decide_eq_true_2. apply elem_of_dom.
    rewrite TreapFacts.dom_tmap. by apply elem_of_list_to_set.
Qed.

(** X15. No program over a map ever has undefined behaviour or fails to
    return; no program over a set does either as long as it makes at most
    [INT_MAX] calls, which keeps the counter from overflowing. *)
Theorem X15_programs_run_to_completion
  (cs : list SetClient.call) (cm : list MapClient.call) (g gm : RandState) :
  Z.of_nat (length cs) <= INT_MAX →
  (∃ rs s g', SetClient.run cs TreapSet.empty g = Done ((rs, s), g'))
  ∧ (∃ rm m gm', MapClient.run cm TreapMap.empty gm = Done ((rm, m), gm')).
Proof.
  intros Hn. split; [by apply set_run_defined|apply map_run_defined].
Qed.

(** ** The further properties at the sample programs *)

Lemma X1_witness : TreapSet.member 60 Samples.set_plus = true.
Proof.
  refine (proj1 (X1_set_insert_then_member
                   Samples.set_calls Samples.gen
                   Samples.set_answers Samples.set_final
                   (Samples.later 4 Samples.gen)
                   60 Samples.gen (next Samples.gen) Samples.set_plus _ _));
    vm_compute; reflexivity.
Defined.

Lemma X2_witness :
  ∃ m1, TreapMap.insert 60 "Dora" Samples.map_final Samples.gen
        = Done (m1, if TreapMap.contains 60 Samples.map_final
                    then Samples.gen else next Samples.gen)
        ∧ TreapMap.find 60 "N/A" m1 = Done ("Dora", m1)
        ∧ TreapMap.contains 60 m1 = true
        ∧ (∀ k' d', k' ≠ 60 →
             ∃ w, TreapMap.find k' d' Samples.map_final
                  = Done (w, Samples.map_final)
                  ∧ TreapMap.find k' d' m1 = Done (w, m1))
        ∧ (∀ k', k' ≠ 60 →
             TreapMap.contains k' m1 = TreapMap.contains k' Samples.map_final)
        ∧ MapClient.count_nodes (TreapMap.root m1)
          = (MapClient.count_nodes (TreapMap.root Samples.map_final)
             + (if TreapMap.contains 60%Z Samples.map_final then 0 else 1))%nat.
Proof.
  apply (X2_map_insert_then_find
           Samples.map_calls Samples.gen
           Samples.map_answers Samples.map_final (Samples.later 3 Samples.gen)
           60 "Dora" "N/A" Samples.gen);
    vm_compute; reflexivity.
Defined.

Lemma X3_witness :
  ∃ s1, TreapSet.remove 50 Samples.set_final = Done s1
        ∧ ∀ k', k' ≠ 50 →
                TreapSet.member k' s1 = TreapSet.member k' Samples.set_final.
Proof.
  refine (proj1 (X3_remove_keeps_other_keys
                   Samples.set_calls Samples.gen
                   Samples.set_answers Samples.set_final
                   (Samples.later 4 Samples.gen)
                   Samples.map_calls Samples.gen
                   Samples.map_answers Samples.map_final
                   (Samples.later 3 Samples.gen) 50 _ _));
    vm_compute; reflexivity.
Defined.

Lemma X6_witness :
  ∃ n', TreapMap.removeRecursive 5 Samples.two_children_map 50 = Done n'
        ∧ (TreapMap.contains 50 (TreapMap.mk Samples.two_children_map) = false
           → n' = Samples.two_children_map)
        ∧ (∀ x, x ∈ MapClient.in_order n' →
                x ∈ MapClient.in_order Samples.two_children_map)
        ∧ MapClient.count_nodes n'
          = (MapClient.count_nodes Samples.two_children_map
             - (if TreapMap.contains 50%Z (TreapMap.mk Samples.two_children_map)
                then 1 else 0))%nat.
Proof.
  refine (proj2 (X6_removeRecursive_any_tree
                   5 Samples.two_children Samples.two_children_map 50 3
                   _ _)); vm_compute; lia.
Defined.


Lemma X8_witness :
  Forall (fun q => q <= 12)
    (Further.set_priorities (TreapSet.root Samples.set_final)).
Proof.
  refine (proj1 (X8_root_has_greatest_priority
                   Samples.set_calls Samples.gen
                   Samples.set_answers Samples.set_final
                   (Samples.later 4 Samples.gen)
                   Samples.map_calls Samples.gen
                   Samples.map_answers Samples.map_final
                   (Samples.later 3 Samples.gen) _ _));
    vm_compute; reflexivity.
Defined.

Lemma X10_witness :
  ∃ s2, TreapSet.remove 60 Samples.set_plus = Done s2
        ∧ SetClient.in_order (TreapSet.root s2)
          = SetClient.in_order (TreapSet.root Samples.set_final)
        ∧ TreapSet.size s2 = TreapSet.size Samples.set_final.
Proof.
  refine (proj1 (X10_insert_then_remove
                   Samples.set_calls Samples.gen
                   Samples.set_answers Samples.set_final
                   (Samples.later 4 Samples.gen)
                   Samples.map_calls Samples.gen
                   Samples.map_answers Samples.map_final
                   (Samples.later 3 Samples.gen)
                   60 "Dora" Samples.gen (next Samples.gen) Samples.gen
                   Samples.set_plus _ _ _ _ _));
    vm_compute; reflexivity.
Defined.

Lemma X11_witness :
  Z.of_nat (length (Further.set_clearRecursive (TreapSet.root Samples.set_final)))
  = TreapSet.size Samples.set_final.
Proof.
  refine (proj1 (proj2 (proj2 (proj1 (X11_clear_deletes_every_node_once
                   Samples.set_calls Samples.gen
                   Samples.set_answers Samples.set_final
                   (Samples.later 4 Samples.gen)
                   Samples.map_calls Samples.gen
                   Samples.map_answers Samples.map_final
                   (Samples.later 3 Samples.gen) _ _)))));
    vm_compute; reflexivity.
Defined.

Lemma X12_witness :
  0 <= TreapSet.size Samples.set_final
  ∧ (TreapSet.size Samples.set_final = 0
     ↔ TreapSet.root Samples.set_final = TreapSet.nullptr)
  ∧ (TreapSet.size Samples.set_final = 0
     ↔ ∀ k, TreapSet.member k Samples.set_final = false).
Proof.
  apply (X12_size_zero_iff_empty
           Samples.set_calls Samples.gen
           Samples.set_answers Samples.set_final
           (Samples.later 4 Samples.gen));
    vm_compute; reflexivity.
Defined.

Lemma X13_witness :
  30 ∈ SetClient.in_order Samples.two_children
  ∧ 30 = 30
  ∧ (30, "Beatriz") ∈ MapClient.bindings Samples.two_children_map
  ∧ ∀ d, TreapMap.find 30 d (TreapMap.mk Samples.two_children_map)
         = Done ("Beatriz", TreapMap.mk Samples.two_children_map).
Proof.
  apply (X13_search_is_sound_on_any_tree
           Samples.two_children Samples.two_children_map 30
           30 "Beatriz" 5 TreapMap.nullptr TreapMap.nullptr);
    vm_compute; reflexivity.
Defined.

Lemma X14_witness :
  (TreapSet.member 50 Samples.set_final = true
   ↔ 50 ∈ SetClient.in_order (TreapSet.root Samples.set_final))
  ∧ (TreapMap.contains 50 Samples.map_final = true
     ↔ 50 ∈ MapClient.in_order (TreapMap.root Samples.map_final)).
Proof.
  apply (X14_search_is_complete_on_reached_trees
           Samples.set_calls Samples.gen
           Samples.set_answers Samples.set_final
           (Samples.later 4 Samples.gen)
           Samples.map_calls Samples.gen
           Samples.map_answers Samples.map_final
           (Samples.later 3 Samples.gen) 50);
    vm_compute; reflexivity.
Defined.

Lemma X15_witness :
  ∃ rs s g',
    SetClient.run Samples.set_calls TreapSet.empty Samples.gen
    = Done ((rs, s), g').
Proof.
  refine (proj1 (X15_programs_run_to_completion
                   Samples.set_calls Samples.map_calls
                   Samples.gen Samples.gen _));
    unfold INT_MAX; simpl; lia.
Defined.
